(** * groupsim: chat extraction, conversation segmentation, example building

    A shallow embedding of [src/data/chatdb.py] and [src/data/dataset.py].

    - Python [str] values are sequences of Unicode code points: [list N].
    - [datetime] values are naive; a timestamp is the number of microseconds
      elapsed since [datetime.min] (a natural number, the upper end
      [datetime.max] is not modelled), a [timedelta] is a signed number of
      microseconds.
    - Exceptions are an error monad [result]; the accesses of
      [extract_group_chats] to the file system and to the store are
      recorded in a trace. *)

From stdpp Require Import base option list strings gmap sorting.
From Stdlib Require Import ZArith NArith Lia.

Local Open Scope Z_scope.

(** ** Python values and primitives *)

Module Py.

(** A Python string: its code points, in order. *)
Definition pystr : Type := list N.

(** The code points of an ASCII literal of the source. *)
Fixpoint str (s : string) : pystr :=
  match s with
  | EmptyString => []
  | String a s' => Ascii.N_of_ascii a :: str s'
  end.

Arguments str : simpl never.

(** The newline character of the source's literals. *)
Definition nl : pystr := [10%N].

Inductive exn : Type :=
  | FileNotFoundError (path : pystr)
  | IndexError
  | ValueError
  | TypeError
  | OverflowError
  | DatabaseError.

Inductive result (A : Type) : Type :=
  | Ok (a : A)
  | Raise (e : exn).
Arguments Ok {A} a.
Arguments Raise {A} e.

#[global] Instance result_ret : MRet result := fun A a => Ok a.
#[global] Instance result_bind : MBind result := fun A B f m =>
  match m with
  | Ok a => f a
  | Raise e => Raise e
  end.

Definition is_ok {A} (r : result A) : bool :=
  match r with Ok _ => true | Raise _ => false end.

(** [for x in l: st = body st x], stopping at the first exception. *)
Fixpoint for_each {S A} (body : S → A → result S) (st : S) (l : list A)
  : result S :=
  match l with
  | [] => Ok st
  | x :: l' => st' ← body st x; for_each body st' l'
  end.

(** [str.isspace] on one character: the code points CPython's
    [_PyUnicode_IsWhitespace] accepts. *)
Definition isspace (c : N) : bool :=
  ((9 <=? c) && (c <=? 13) || (28 <=? c) && (c <=? 32)
   || (c =? 133) || (c =? 160) || (c =? 5760)
   || (8192 <=? c) && (c <=? 8202)
   || (c =? 8232) || (c =? 8233) || (c =? 8239) || (c =? 8287)
   || (c =? 12288))%N.

Fixpoint lstrip (s : pystr) : pystr :=
  match s with
  | [] => []
  | c :: s' => if isspace c then lstrip s' else s
  end.

Definition rstrip (s : pystr) : pystr := rev (lstrip (rev s)).

(** [s.strip()] *)
Definition strip (s : pystr) : pystr := rstrip (lstrip s).

(** [s.startswith(p)] *)
Fixpoint startswith (s p : pystr) : bool :=
  match p, s with
  | [], _ => true
  | _ :: _, [] => false
  | a :: p', b :: s' => (a =? b)%N && startswith s' p'
  end.

(** [sep.join(parts)] *)
Fixpoint join (sep : pystr) (parts : list pystr) : pystr :=
  match parts with
  | [] => []
  | [p] => p
  | p :: rest => p ++ sep ++ join sep rest
  end.

(** A slice bound as Python clamps it: a negative bound counts from the
    end, and both ends are cut to [0 .. len]. *)
Definition clamp (len i : Z) : Z :=
  if i <? 0 then Z.max (i + len) 0 else Z.min i len.

(** [l[start:stop]] *)
Definition slice {A} (l : list A) (start stop : Z) : list A :=
  let len := Z.of_nat (length l) in
  let a := clamp len start in
  let b := clamp len stop in
  take (Z.to_nat (b - a)) (drop (Z.to_nat a) l).

(** [l[i]], which raises [IndexError] out of range. *)
Definition getitem {A} (l : list A) (i : Z) : result A :=
  let len := Z.of_nat (length l) in
  let j := if i <? 0 then i + len else i in
  if (j <? 0) || (len <=? j) then Raise IndexError
  else match l !! Z.to_nat j with
       | Some x => Ok x
       | None => Raise IndexError
       end.

(** [timedelta(hours=h)] in microseconds; the constructor refuses a
    duration of more than 999999999 days in either direction. *)
Definition timedelta_hours (h : Z) : result Z :=
  if (-999999999 <=? h `div` 24) && (h `div` 24 <=? 999999999)
  then Ok (h * 3600000000)
  else Raise OverflowError.

End Py.
Import Py.

(** ** chatdb.py *)

Module Chatdb.

(** What the extraction takes from the Python runtime without the source
    fixing it: Unicode case mapping and the ISO timestamp parser
    ([None] where [datetime.fromisoformat] raises [ValueError]). *)
Class Runtime : Type := {
  str_upper : pystr → pystr;
  str_lower : pystr → pystr;
  fromisoformat : pystr → option N
}.

(** [@dataclass class Message] *)
Record Message : Type := {
  speaker : option pystr;
  text : pystr;
  timestamp : N
}.

(** [os.path.join(a, b)] for POSIX paths. *)
Definition path_join (a b : pystr) : pystr :=
  if startswith b (str "/") then b
  else match last a with
       | None => b
       | Some c => if (c =? 47)%N then a ++ b else a ++ str "/" ++ b
       end.

(** *** The last stage of [READ_QUERY]

    A [StoreRow] is a row of [messages LEFT JOIN group_chat_handles], the
    input of the stage [filtered_messages]; a field is [None] where the
    column is NULL. *)
Record StoreRow : Type := {
  row_chat_name : option pystr;
  row_name : option pystr;
  row_is_from_me : bool;
  row_handle_id : option pystr;
  row_text : option pystr;
  row_timestamp : option pystr
}.

(** A row of the final [SELECT *]:
    [(chat_name, speaker, text, timestamp)]. *)
Definition Row : Type := pystr * option pystr * pystr * option pystr.

(** SQLite's [LIKE] ignores the case of ASCII letters. *)
Definition ascii_fold (c : N) : N :=
  if ((65 <=? c) && (c <=? 90))%N then (c + 32)%N else c.

(** [s LIKE 'p%'] for a literal [p] without wildcards. *)
Definition sql_like_prefix (s p : pystr) : bool :=
  startswith (map ascii_fold s) (map ascii_fold p).

Definition reaction_prefixes : list pystr :=
  [str "Loved"; str "Liked"; str "Disliked"; str "Laughed at";
   str "Emphasized"; str "Questioned"; str "Removed"].

(** The [CASE] expression that resolves the speaker. *)
Definition speaker_case (r : StoreRow) : option pystr :=
  match row_name r with
  | Some n => Some n
  | None => if row_is_from_me r then Some (str "jeremy") else row_handle_id r
  end.

(** [WHERE] and [SELECT] of [filtered_messages] on one row. *)
Definition select_row (r : StoreRow) : option Row :=
  match row_chat_name r, row_text r with
  | Some cn, Some t =>
      if negb (bool_decide (cn = []))
         && forallb (fun p => negb (sql_like_prefix t p)) reaction_prefixes
      then Some (cn, speaker_case r, t, row_timestamp r)
      else None
  | _, _ => None
  end.

Definition filtered_messages (rows : list StoreRow) : list Row :=
  omap select_row rows.

(** *** The world [extract_group_chats] runs in *)

Record World : Type := {
  home : pystr;
  path_exists : pystr → bool;
  (** [sqlite3.connect(path)]: done, or the exception it raises *)
  db_connect : pystr → result unit;
  (** [cursor.execute(READ_QUERY, [param])] on the store at a path *)
  db_execute : pystr → pystr → result unit;
  (** [cursor.fetchall()]: the rows the first three stages of the query
      give at a path for a [LIKE] parameter, or the exception it raises *)
  db_fetchall : pystr → pystr → result (list StoreRow)
}.

(** What the three accesses to the store give one after the other: the
    rows, or the exception of the first access that raises. *)
Definition store (w : World) (p param : pystr) : result (list StoreRow) :=
  _ ← db_connect w p;
  _ ← db_execute w p param;
  db_fetchall w p param.

Inductive event : Type :=
  | EvExists (path : pystr)
  | EvConnect (path : pystr)
  | EvExecute (param : pystr)
  | EvFetchall.

(** Computations that extend a trace of events and may raise. *)
Definition io (A : Type) : Type := list event → list event * result A.

#[global] Instance io_ret : MRet io := fun A a tr => (tr, Ok a).
#[global] Instance io_bind : MBind io := fun A B f m tr =>
  match m tr with
  | (tr', Ok a) => f a tr'
  | (tr', Raise e) => (tr', Raise e)
  end.

Definition emit (e : event) : io unit := fun tr => (tr ++ [e], Ok ()).
Definition raise {A} (e : exn) : io A := fun tr => (tr, Raise e).
Definition lift {A} (r : result A) : io A := fun tr => (tr, r).

(** [CHATDB_PATH] *)
Definition CHATDB_PATH (w : World) : pystr :=
  path_join (home w) (str "Library/Messages/chat.db").

Definition os_path_exists (w : World) (p : pystr) : io bool :=
  _ ← emit (EvExists p); mret (path_exists w p).

(** The [with sqlite3.connect(...)] block. *)
Definition read_result_set (w : World) (p param : pystr) : io (list Row) :=
  _ ← emit (EvConnect p);
  _ ← lift (db_connect w p);
  _ ← emit (EvExecute param);
  _ ← lift (db_execute w p param);
  _ ← emit EvFetchall;
  rows ← lift (db_fetchall w p param);
  mret (filtered_messages rows).

(** [chats[chat_name].append(msg)] on a [defaultdict(list)]. *)
Definition dict_append (chats : gmap pystr (list Message)) (k : pystr)
    (msg : Message) : gmap pystr (list Message) :=
  <[k := default [] (chats !! k) ++ [msg]]> chats.

(** [sorted(chat, key=lambda m: m.timestamp)]: a stable sort. *)
Fixpoint insert_by_timestamp (m : Message) (l : list Message) : list Message :=
  match l with
  | [] => [m]
  | x :: l' =>
      if (timestamp m <=? timestamp x)%N then m :: l
      else x :: insert_by_timestamp m l'
  end.

Definition sorted_by_timestamp (chat : list Message) : list Message :=
  foldr insert_by_timestamp [] chat.

Section Extract.
Context `{Runtime}.

(** The normalisation [speaker[0].upper() + speaker[1:].lower()]. *)
Definition normalize_speaker (speaker : option pystr) : result (option pystr) :=
  match speaker with
  | None => Ok None
  | Some s =>
      c ← getitem s 0;
      Ok (Some (str_upper [c]
                ++ str_lower (slice s 1 (Z.of_nat (length s)))))
  end.

(** [datetime.datetime.fromisoformat(raw_timestamp)] *)
Definition parse_timestamp (raw : option pystr) : result N :=
  match raw with
  | None => Raise TypeError
  | Some s =>
      match fromisoformat s with
      | Some t => Ok t
      | None => Raise ValueError
      end
  end.

(** The body of [for row in result_set]. *)
Definition row_body (chats : gmap pystr (list Message)) (row : Row)
  : result (gmap pystr (list Message)) :=
  let '(chat_name, speaker, text, raw_timestamp) := row in
  let text := strip text in
  speaker ← normalize_speaker speaker;
  timestamp ← parse_timestamp raw_timestamp;
  if existsb (fun char => (char =? 65532)%N) text then Ok chats
  else Ok (dict_append chats chat_name
             {| speaker := speaker; text := text; timestamp := timestamp |}).

Definition extract_group_chats (w : World) (chat_name : pystr)
  : io (gmap pystr (list Message)) :=
  found ← os_path_exists w (CHATDB_PATH w);
  if negb found then raise (FileNotFoundError (CHATDB_PATH w))
  else
    result_set ← read_result_set w (CHATDB_PATH w)
                   (str "%" ++ chat_name ++ str "%");
    chats ← lift (for_each row_body ∅ result_set);
    mret (sorted_by_timestamp <$> chats).

End Extract.

End Chatdb.
Import Chatdb.

(** ** dataset.py *)

Module Dataset.

(** [datetime.min] *)
Definition datetime_min : N := 0%N.

(** The variables of the loop of [construct_conversations]. *)
Record seg_state : Type := {
  conversations : list (list Message);
  conversation : list Message;
  start_timestamp : N
}.

Definition seg_init : seg_state :=
  {| conversations := []; conversation := []; start_timestamp := datetime_min |}.

(** The body of the loop once the boundary [td] is built. *)
Definition seg_step (td : Z) (st : seg_state) (msg : Message) : seg_state :=
  if td <? Z.of_N (timestamp msg) - Z.of_N (start_timestamp st) then
    {| conversations :=
         match conversation st with
         | [] => conversations st
         | _ :: _ => conversations st ++ [conversation st]
         end;
       conversation := [msg];
       start_timestamp := timestamp msg |}
  else
    {| conversations := conversations st;
       conversation := conversation st ++ [msg];
       start_timestamp := start_timestamp st |}.

(** One iteration of [for msg in chat]: the test builds
    [timedelta(hours=boundary_duration)] anew each time. *)
Definition seg_body (boundary_duration : Z) (st : seg_state) (msg : Message)
  : result seg_state :=
  td ← timedelta_hours boundary_duration;
  Ok (seg_step td st msg).

Definition seg_loop (chat : list Message) (boundary_duration : Z)
  : result seg_state :=
  for_each (seg_body boundary_duration) seg_init chat.

Definition construct_conversations (chat : list Message) (boundary_duration : Z)
  : result (list (list Message)) :=
  st ← seg_loop chat boundary_duration;
  Ok (conversations st).

(** The default of the parameter [boundary_duration]. *)
Definition default_boundary_duration : Z := 2.

(** The dict [construct_example] returns. *)
Record Example : Type := {
  instruction : pystr;
  input : pystr;
  output : pystr
}.

(** [f"{speaker}"]: [None] is formatted as the word None. *)
Definition format_speaker (s : option pystr) : pystr :=
  match s with
  | Some s => s
  | None => str "None"
  end.

(** One line of the context. *)
Definition render_line (msg : Message) : pystr :=
  match speaker msg with
  | Some s => s ++ str ": " ++ text msg
  | None => str "Unknown speaker: " ++ text msg
  end.

Definition render (msgs : list Message) : pystr :=
  join nl (map render_line msgs).

Definition construct_example (partial_conversation : list Message)
    (instruction : pystr) : result Example :=
  let context := render (slice partial_conversation 0 (-1)) in
  let context :=
    if 256 * 4 <? Z.of_nat (length context) then
      render (slice partial_conversation
                (Z.of_nat (length partial_conversation) `div` 2) (-1))
    else context in
  let context := str "Conversation:" ++ nl ++ context ++ nl in
  last_msg ← getitem partial_conversation (-1);
  Ok {| instruction := instruction;
        input := context ++ format_speaker (speaker last_msg) ++ str ": ";
        output := text last_msg |}.

(** The first filter of the script: the test that skips a conversation. *)
Definition skipped (c : list Message) : bool :=
  (length c =? 1)%nat
  && match c with
     | [] => false
     | m :: _ =>
         startswith (text m) (str "http") || (length (text m) <=? 10)%nat
     end.

Definition filtered_conversations (conversations : list (list Message))
  : list (list Message) :=
  List.filter (fun c => negb (skipped c)) conversations.

End Dataset.
Import Dataset.

(** ** dataset.py: the script *)

Module Script.

(** [[f(x) for x in l]] where [f] may raise. *)
Fixpoint map_result {A B} (f : A → result B) (l : list A) : result (list B) :=
  match l with
  | [] => Ok []
  | x :: l' => y ← f x; ys ← map_result f l'; Ok (y :: ys)
  end.

(** [for chat in group_chats.values(): conversations +=
    construct_conversations(chat)], on the values of the mapping in the
    order the dict yields them. *)
Definition all_conversations (group_chats : list (list Message))
  : result (list (list Message)) :=
  for_each
    (fun conversations chat =>
       segs ← construct_conversations chat default_boundary_duration;
       Ok (conversations ++ segs))
    [] group_chats.

(** A [Counter]: its keys in the order of their insertion, with their
    counts. *)
Definition Counter : Type := list (option pystr * nat).

(** [counts[k]]: zero for a key that is missing. *)
Fixpoint counter_get (counts : Counter) (k : option pystr) : nat :=
  match counts with
  | [] => 0
  | (k', n) :: rest => if decide (k = k') then n else counter_get rest k
  end.

(** [counts[k] += 1] *)
Fixpoint counter_incr (k : option pystr) (counts : Counter) : Counter :=
  match counts with
  | [] => [(k, 1%nat)]
  | (k', n) :: rest =>
      if decide (k = k') then (k', S n) :: rest
      else (k', n) :: counter_incr k rest
  end.

Definition speaker_counts (conversations : list (list Message)) : Counter :=
  fold_left
    (fun counts c =>
       fold_left (fun counts m => counter_incr (speaker m) counts) c counts)
    conversations [].

(** The prefixes [c[: i + 1]] of one conversation that end on a message
    with a speaker; [i] ranges over [range(len(c))], where [c[i]] is in
    range. *)
Definition prefixes (c : list Message) : list (list Message) :=
  i ← seq 0 (length c);
  match c !! i with
  | Some m =>
      match speaker m with
      | Some _ => [slice c 0 (Z.of_nat i + 1)]
      | None => []
      end
  | None => []
  end.

Definition partial_conversations (conversations : list (list Message))
  : list (list Message) :=
  c ← conversations; prefixes c.

(** [[speaker for speaker in speaker_counts.keys() if speaker is not None]] *)
Definition speakers (counts : Counter) : list pystr :=
  omap fst counts.

Definition instructions (speakers : list pystr) : pystr :=
  str "The conversation below is a group chat among friends: "
  ++ join (str ", ") speakers
  ++ str ". The group chat usually consists of sharing updates or content, telling jokes or teasing one another in good fun. You should be funny, have no filter, and even be rude and curse."
  ++ nl ++ nl
  ++ str "You will see the most recent messages in the group chat, if there are any, and you should start or continue the conversation as the indicated speaker.".

(** The script from the segmentation to the dataset, before the
    shuffle. *)
Definition build_dataset (group_chats : list (list Message))
  : result (list Example) :=
  conversations ← all_conversations group_chats;
  let conversations := filtered_conversations conversations in
  let counts := speaker_counts conversations in
  let pcs := partial_conversations conversations in
  map_result (fun pc => construct_example pc (instructions (speakers counts)))
    pcs.

End Script.
Import Script.

(** ** A concrete runtime

    ASCII case mapping, and the one timestamp format the query emits
    ([datetime(...)] of SQLite: [YYYY-MM-DD HH:MM:SS]). *)

Module AsciiRuntime.

Definition upper_char (c : N) : N :=
  if ((97 <=? c) && (c <=? 122))%N then (c - 32)%N else c.

Definition lower_char (c : N) : N :=
  if ((65 <=? c) && (c <=? 90))%N then (c + 32)%N else c.

Definition digit (c : N) : option N :=
  if ((48 <=? c) && (c <=? 57))%N then Some (c - 48)%N else None.

Fixpoint number (acc : N) (s : pystr) : option N :=
  match s with
  | [] => Some acc
  | c :: s' => d ← digit c; number (10 * acc + d)%N s'
  end.

(** The digits of [s] from position [i], [n] of them. *)
Definition field (s : pystr) (i n : nat) : option N :=
  let f := take n (drop i s) in
  if (length f =? n)%nat then number 0%N f else None.

Definition is_leap (y : N) : bool :=
  ((y mod 4 =? 0) && (negb (y mod 100 =? 0) || (y mod 400 =? 0)))%N.

Definition days_in_month (y m : N) : N :=
  (if (m =? 2) then (if is_leap y then 29 else 28)
   else if (m =? 4) || (m =? 6) || (m =? 9) || (m =? 11) then 30
   else 31)%N.

Definition days_before_year (y : N) : N :=
  (let p := y - 1 in p * 365 + p / 4 - p / 100 + p / 400)%N.

Definition days_before_month (y m : N) : N :=
  foldr N.add 0%N
    (map (fun k => days_in_month y (N.of_nat k)) (seq 1 (N.to_nat m - 1))).

Definition separators_ok (s : pystr) : bool :=
  bool_decide (s !! 4%nat = Some 45%N ∧ s !! 7%nat = Some 45%N
               ∧ s !! 10%nat = Some 32%N
               ∧ s !! 13%nat = Some 58%N ∧ s !! 16%nat = Some 58%N).

(** Microseconds since [datetime.min]. *)
Definition parse_iso (s : pystr) : option N :=
  if negb ((length s =? 19)%nat && separators_ok s) then None
  else
    y ← field s 0 4; mo ← field s 5 2; d ← field s 8 2;
    h ← field s 11 2; mi ← field s 14 2; sec ← field s 17 2;
    if ((1 <=? y) && (1 <=? mo) && (mo <=? 12)
        && (1 <=? d) && (d <=? days_in_month y mo)
        && (h <? 24) && (mi <? 60) && (sec <? 60))%N
    then
      Some ((((days_before_year y + days_before_month y mo + d - 1) * 86400
              + h * 3600 + mi * 60 + sec) * 1000000)%N)
    else None.

#[global] Instance ascii_runtime : Runtime := {|
  str_upper := map upper_char;
  str_lower := map lower_char;
  fromisoformat := parse_iso
|}.

End AsciiRuntime.
Import AsciiRuntime.

(** ** Specification vocabulary for the segmentation *)

(** Every segment the loop has begun so far: the closed ones and the
    open one. *)
Definition segments (st : seg_state) : list (list Message) :=
  conversations st
  ++ match conversation st with
     | [] => []
     | _ :: _ => [conversation st]
     end.

(** No message of a segment is later than [td] after its first one. *)
Definition span_ok (td : Z) (seg : list Message) : Prop :=
  match seg with
  | [] => False
  | f :: r =>
      ∀ m, m ∈ r → Z.of_N (timestamp m) - Z.of_N (timestamp f) ≤ td
  end.

(** Two adjacent segments begin more than [td] apart, unless the first
    one is the segment opened under the [datetime.min] sentinel. *)
Definition starts_apart (td : Z) (segs : list (list Message)) : Prop :=
  ∀ i f r g r',
    segs !! i = Some (f :: r) → segs !! S i = Some (g :: r') →
    (0 < i)%nat ∨ td < Z.of_N (timestamp f) →
    td < Z.of_N (timestamp g) - Z.of_N (timestamp f).





(** The invariant of the loop once the messages [pre] are processed. *)
Record seg_inv (td : Z) (pre : list Message) (st : seg_state) : Prop := {
  inv_cover : concat (conversations st) ++ conversation st = pre;
  inv_closed : Forall (span_ok td) (conversations st);
  inv_empty :
    conversation st = [] →
    start_timestamp st = datetime_min ∧ conversations st = [] ∧ pre = [];
  inv_anchor : ∀ f r,
    conversation st = f :: r →
    start_timestamp st = timestamp f
    ∨ (start_timestamp st = datetime_min ∧ conversations st = []
       ∧ Z.of_N (timestamp f) ≤ td);
  inv_open : ∀ f r m,
    conversation st = f :: r → m ∈ r →
    Z.of_N (timestamp m) - Z.of_N (start_timestamp st) ≤ td;
  inv_starts : starts_apart td (segments st)
}.

(** The boundary durations [timedelta(hours=...)] accepts, and the
    boundary in microseconds. *)
Definition valid_hours (boundary_duration : Z) : Prop :=
  -999999999 ≤ boundary_duration `div` 24 ≤ 999999999.

Definition hours (boundary_duration : Z) : Z := boundary_duration * 3600000000.

(** A time-ordered message list. *)
Definition non_decreasing (chat : list Message) : Prop :=
  ∀ i a b, chat !! i = Some a → chat !! S i = Some b →
           (timestamp a ≤ timestamp b)%N.

(** The gap between two messages, in microseconds. *)
Definition gap (a b : Message) : Z :=
  Z.of_N (timestamp b) - Z.of_N (timestamp a).

(** One hour, in microseconds. *)
Definition hour : N := 3600000000%N.

(** Three messages, one hour and then two hours apart. *)
Definition three_messages (t0 : N) (m0 m1 m2 : option pystr * pystr)
  : list Message :=
  [ {| speaker := m0.1; text := m0.2; timestamp := t0 |};
    {| speaker := m1.1; text := m1.2; timestamp := t0 + hour |};
    {| speaker := m2.1; text := m2.2; timestamp := t0 + 3 * hour |} ].

(** ** Specification vocabulary for the example builder *)

(** The messages before the last one. *)
Definition context_messages (pc : list Message) : list Message :=
  take (length pc - 1) pc.

(** The messages from index [len // 2] up to the last one, excluded. *)
Definition second_half (pc : list Message) : list Message :=
  take (length pc - 1 - length pc / 2) (drop (length pc / 2) pc).

(** The character budget of the context. *)
Definition budget : nat := 1024.

(** ** Specification vocabulary for the extraction *)

(** The [LIKE] parameter the extraction passes to the query. *)
Definition like_param (chat_name : pystr) : pystr :=
  str "%" ++ chat_name ++ str "%".

(** The events of a run that finds the store and reads it. *)
Definition read_events (w : World) (chat_name : pystr) : list event :=
  [EvExists (CHATDB_PATH w); EvConnect (CHATDB_PATH w);
   EvExecute (like_param chat_name); EvFetchall].

(** The text of a row of the result set. *)
Definition row_text_of (row : Row) : pystr := row.1.2.

Definition row_speaker_of (row : Row) : option pystr := row.1.1.2.

(** Only whitespace, possibly nothing at all. *)
Definition blank (s : pystr) : Prop := forallb isspace s = true.

(** The property the extraction is said to have: no retained message
    has an empty text. *)
Definition no_empty_text (chats : gmap pystr (list Message)) : Prop :=
  ∀ k chat m, chats !! k = Some chat → m ∈ chat → strip (text m) ≠ [].

(** A message made from a row: its text is the row's, stripped, and has
    no object replacement character. *)
Definition made_from (row : Row) (m : Message) : Prop :=
  text m = strip (row_text_of row)
  ∧ existsb (fun char => (char =? 65532)%N) (text m) = false.

(** A world whose home is [/Users/jeremy], where the store is present or
    not, and where the query finds the given rows. *)
Definition world_of (present : bool) (rows : list StoreRow) : World :=
  {| home := str "/Users/jeremy";
     path_exists := fun p =>
       present && bool_decide (p = str "/Users/jeremy/Library/Messages/chat.db");
     db_connect := fun p =>
       if present
          && bool_decide (p = str "/Users/jeremy/Library/Messages/chat.db")
       then Ok () else Raise DatabaseError;
     db_execute := fun _ _ => Ok ();
     db_fetchall := fun _ _ => Ok rows |}.

Definition store_row (chat name text when : string) : StoreRow :=
  {| row_chat_name := Some (str chat);
     row_name := Some (str name);
     row_is_from_me := false;
     row_handle_id := Some (str "+15550100");
     row_text := Some (str text);
     row_timestamp := Some (str when) |}.

(** A store with a message of three spaces between two ordinary ones. *)
Definition blank_rows : list StoreRow :=
  [store_row "Friends" "al" " Dinner at eight? " "2023-01-01 12:00:00";
   store_row "Friends" "bo" "   " "2023-01-01 12:05:00";
   store_row "Friends" "cy" "Liked an image" "2023-01-01 12:06:00"].

(** A store with a handle whose name was set to the empty string. *)
Definition nameless_rows : list StoreRow :=
  [store_row "Friends" "al" "Dinner at eight?" "2023-01-01 12:00:00";
   store_row "Friends" "" "Sure, see you then" "2023-01-01 12:05:00"].

(** ** Sample data *)

Definition message (who : option string) (what : string) (when : N) : Message :=
  {| speaker := str <$> who; text := str what; timestamp := when |}.

(** 2023-01-01 12:00:00, in microseconds since [datetime.min]. *)
Definition noon : N := 63808171200000000%N.


(** Messages at noon, one, three and six hours later. *)
Definition afternoon_chat : list Message :=
  [message (Some "Al") "Dinner at eight?" noon;
   message (Some "Bo") "Sure, see you then" (noon + hour);
   message None "Did you see that movie?" (noon + 3 * hour);
   message (Some "Al") "Not yet" (noon + 6 * hour)].

Definition ten_characters : Message := message (Some "Al") "0123456789" noon.

(** Five messages of 600 characters each. *)
Definition long_message (who : string) (when : N) : Message :=
  {| speaker := Some (str who); text := replicate 600 120%N; timestamp := when |}.

Definition long_chat : list Message :=
  [long_message "Al" noon; long_message "Bo" (noon + 1);
   long_message "Al" (noon + 2); long_message "Bo" (noon + 3);
   long_message "Al" (noon + 4)].

(** What the extraction makes of [blank_rows]. *)
Definition blank_chat : list Message :=
  [message (Some "Al") "Dinner at eight?" noon;
   {| speaker := Some (str "Bo"); text := [];
      timestamp := noon + 300000000 |}].

(** ** Specification vocabulary for the script *)

(** The messages that have a speaker, in order. *)
Definition with_speaker (msgs : list Message) : list Message :=
  filter (fun m => is_Some (speaker m)) msgs.

(** The messages a given speaker (or no speaker) wrote. *)
Definition spoken_by (k : option pystr) (msgs : list Message) : list Message :=
  filter (fun m => speaker m = k) msgs.

(** The elements of a list in the order of their first occurrence, each
    once. *)
Fixpoint first_seen {A} `{EqDecision A} (l : list A) : list A :=
  match l with
  | [] => []
  | x :: l' => x :: filter (fun y => y ≠ x) (first_seen l')
  end.

(** The keys of a [Counter], in the order of their insertion. *)
Definition counter_keys (counts : Counter) : list (option pystr) :=
  map fst counts.

(** ** Specification vocabulary for the rows of the extraction *)

(** The name of the chat of a row of the result set, and its raw
    timestamp. *)
Definition row_chat_of (row : Row) : pystr := row.1.1.1.

Definition row_when_of (row : Row) : option pystr := row.2.

(** The message a row of the result set makes, none when its text holds
    the object replacement character; the exception where the row cannot
    be read. *)
Definition row_message `{Runtime} (row : Row) : result (option Message) :=
  speaker ← normalize_speaker (row_speaker_of row);
  timestamp ← parse_timestamp (row_when_of row);
  if existsb (fun char => (char =? 65532)%N) (strip (row_text_of row))
  then Ok None
  else Ok (Some {| speaker := speaker; text := strip (row_text_of row);
                   timestamp := timestamp |}).

(** The messages the rows of the chat [k] make, in the order of the
    rows. *)
Definition chat_rows `{Runtime} (k : pystr) (rows : list Row) : list Message :=
  row ← rows;
  if decide (row_chat_of row = k) then
    match row_message row with
    | Ok (Some m) => [m]
    | _ => []
    end
  else [].

(** A row the loop can read: its speaker is not the empty string and
    its timestamp is there and parses. *)
Definition row_valid `{Runtime} (row : Row) : Prop :=
  row_speaker_of row ≠ Some []
  ∧ ∃ raw t, row_when_of row = Some raw ∧ fromisoformat raw = Some t.

(** The order of the timestamps of two messages. *)
Definition timestamp_le (a b : Message) : Prop :=
  (timestamp a ≤ timestamp b)%N.

(** A world where the path of the store is there and is no database:
    the connection fails. *)
Definition broken_world : World :=
  {| home := str "/Users/jeremy";
     path_exists := fun _ => true;
     db_connect := fun _ => Raise DatabaseError;
     db_execute := fun _ _ => Ok ();
     db_fetchall := fun _ _ => Ok [] |}.

(** A world where the connection is made and the query fails, as when a
    table or a column of it is missing. *)
Definition stale_world : World :=
  {| home := str "/Users/jeremy";
     path_exists := fun _ => true;
     db_connect := fun _ => Ok ();
     db_execute := fun _ _ => Raise DatabaseError;
     db_fetchall := fun _ _ => Ok [] |}.

(** A store with reactions only, one of them in lower case. *)
Definition reaction_rows : list StoreRow :=
  [store_row "Friends" "al" "Loved an image" "2023-01-01 12:00:00";
   store_row "Friends" "bo" "laughed at a joke" "2023-01-01 12:05:00"].

(** * Properties *)

(** ** Loops in the error monad *)

Lemma for_each_app {S A} (body : S → A → result S) (st : S) (l1 l2 : list A) :
  for_each body st (l1 ++ l2)
  = (st' ← for_each body st l1; for_each body st' l2).
Proof.
  revert st. induction l1 as [|x l1 IH]; intros st; simpl; [done|].
  destruct (body st x) as [st'|e]; simpl; [apply IH|done].
Qed.

Lemma for_each_pure {S A} (body : S → A → result S) (step : S → A → S)
    (st : S) (l : list A) :
  (∀ s x, body s x = Ok (step s x)) →
  for_each body st l = Ok (fold_left step l st).
Proof.
  intros Hb. revert st. induction l as [|x l IH]; intros st; simpl; [done|].
  rewrite Hb. simpl. apply IH.
Qed.

(** Two adjacent positions of a list extended by one element. *)
Lemma lookup_snoc_pair {A} (l : list A) (x : A) (i : nat) (a b : A) :
  (l ++ [x]) !! i = Some a → (l ++ [x]) !! S i = Some b →
  (l !! i = Some a ∧ l !! S i = Some b)
  ∨ (S i = length l ∧ l !! i = Some a ∧ b = x).
Proof.
  intros Hi Hi'.
  assert (S i < length (l ++ [x]))%nat as Hlt by by eapply lookup_lt_Some.
  rewrite length_app in Hlt. simpl in Hlt.
  rewrite lookup_app_l in Hi by lia.
  destruct (decide (S i < length l)%nat) as [Hl|Hl].
  - left. by rewrite lookup_app_l in Hi' by lia.
  - right. rewrite lookup_app_r in Hi' by lia.
    replace (S i - length l)%nat with 0%nat in Hi' by lia.
    simpl in Hi'. injection Hi' as <-. repeat split; [lia|done].
Qed.

(** ** construct_conversations *)

Section Segmentation.

Variable td : Z.

Lemma seg_inv_init : seg_inv td [] seg_init.
Proof.
  split; simpl; try done.
Qed.

Lemma span_ok_open st f r :
  conversation st = f :: r →
  (start_timestamp st = timestamp f
   ∨ (start_timestamp st = datetime_min ∧ conversations st = []
      ∧ Z.of_N (timestamp f) ≤ td)) →
  (∀ m, m ∈ r → Z.of_N (timestamp m) - Z.of_N (start_timestamp st) ≤ td) →
  span_ok td (f :: r).
Proof.
  intros _ Ha Ho m Hm. specialize (Ho m Hm).
  destruct Ha as [Ha|(Ha & _ & _)]; rewrite Ha in Ho;
    unfold datetime_min in *; lia.
Qed.

Lemma seg_inv_step pre st msg :
  seg_inv td pre st → seg_inv td (pre ++ [msg]) (seg_step td st msg).
Proof.
  intros [Hcov Hcl Hemp Hanc Hop Hst]. unfold seg_step.
  destruct (Z.ltb_spec td
              (Z.of_N (timestamp msg) - Z.of_N (start_timestamp st)))
    as [Hgap|Hgap].
  - (* the message opens a segment *)
    destruct (conversation st) as [|f r] eqn:Hc.
    + destruct (Hemp eq_refl) as (Hs & Hcs & ->).
      split; simpl; rewrite ?Hcs; simpl; try done.
      * intros f r [= <- <-]. by left.
      * intros f r m [= <- <-] Hm. by apply elem_of_nil in Hm.
    + split; simpl.
      * rewrite concat_app. simpl. rewrite app_nil_r. by rewrite Hcov.
      * apply Forall_app. split; [done|]. constructor; [|done].
        eapply span_ok_open; eauto.
      * done.
      * intros f' r' [= <- <-]. by left.
      * intros f' r' m [= <- <-] Hm. by apply elem_of_nil in Hm.
      * intros i f' r' g r'' Hi Hi' Hor.
        unfold segments in Hst, Hi, Hi'. simpl in *. rewrite Hc in Hst.
        destruct (lookup_snoc_pair _ _ _ _ _ Hi Hi')
          as [[Hj Hj']|(Hlen & Hj & Hg)]; [by eapply Hst|].
        rewrite length_app in Hlen. simpl in Hlen.
        rewrite list_lookup_middle in Hj by lia. simplify_eq.
        destruct (Hanc f' r' eq_refl) as [Heq|(Heq & Hnil & Hle)].
        -- by rewrite Heq in Hgap.
        -- rewrite Hnil in Hlen. simpl in Hlen. lia.
  - (* the message joins the open segment *)
    split; simpl.
    + by rewrite app_assoc, Hcov.
    + done.
    + intros Hnil. by apply app_eq_nil in Hnil as [_ ?].
    + intros f r Hfr. destruct (conversation st) as [|f0 r0] eqn:Hc.
      * destruct (Hemp eq_refl) as (Hs & Hcs & _).
        simpl in Hfr. injection Hfr as <- <-.
        right. rewrite Hs in Hgap. unfold datetime_min in *.
        repeat split; [done|done|lia].
      * simpl in Hfr. injection Hfr as <- <-. by eapply Hanc.
    + intros f r m Hfr Hm. destruct (conversation st) as [|f0 r0] eqn:Hc.
      * simpl in Hfr. injection Hfr as <- <-. by apply elem_of_nil in Hm.
      * simpl in Hfr. injection Hfr as <- <-.
        apply elem_of_app in Hm as [Hm|Hm]; [by eapply Hop|].
        apply list_elem_of_singleton in Hm as ->. done.
    + intros i f r g r' Hi Hi' Hor.
      unfold segments in Hst, Hi, Hi'. simpl in *.
      destruct (conversation st) as [|f0 r0] eqn:Hc.
      * destruct (Hemp eq_refl) as (_ & Hcs & _). rewrite Hcs in Hi'.
        simpl in Hi'. by rewrite lookup_nil in Hi'.
      * simpl in Hi, Hi'.
        destruct (lookup_snoc_pair _ _ _ _ _ Hi Hi')
          as [[Hj Hj']|(Hlen & Hj & Hg)].
        -- eapply (Hst i); eauto using lookup_app_l_Some.
        -- simplify_eq.
           eapply (Hst i); eauto using lookup_app_l_Some.
           by apply list_lookup_middle.
Qed.

Lemma seg_inv_fold pre st chat :
  seg_inv td pre st → seg_inv td (pre ++ chat) (fold_left (seg_step td) chat st).
Proof.
  revert pre st. induction chat as [|msg chat IH]; intros pre st Hinv; simpl.
  - by rewrite app_nil_r.
  - rewrite (cons_middle msg), app_assoc. apply IH. by apply seg_inv_step.
Qed.

Lemma seg_inv_chat chat : seg_inv td chat (fold_left (seg_step td) chat seg_init).
Proof. apply (seg_inv_fold [] seg_init chat), seg_inv_init. Qed.

End Segmentation.

Lemma timedelta_hours_valid bd :
  valid_hours bd → timedelta_hours bd = Ok (hours bd).
Proof.
  intros [Hlo Hhi]. unfold timedelta_hours.
  destruct (Z.leb_spec (-999999999) (bd `div` 24)); [|lia].
  destruct (Z.leb_spec (bd `div` 24) 999999999); [|lia]. done.
Qed.

Lemma valid_hours_default : valid_hours default_boundary_duration.
Proof. split; by vm_compute. Qed.

Lemma seg_loop_valid chat bd :
  valid_hours bd →
  seg_loop chat bd = Ok (fold_left (seg_step (hours bd)) chat seg_init).
Proof.
  intros Hbd. unfold seg_loop. apply for_each_pure.
  intros st msg. unfold seg_body. by rewrite timedelta_hours_valid.
Qed.

Lemma construct_conversations_valid chat bd :
  valid_hours bd →
  construct_conversations chat bd
  = Ok (conversations (fold_left (seg_step (hours bd)) chat seg_init)).
Proof.
  intros Hbd. unfold construct_conversations. by rewrite seg_loop_valid.
Qed.


(** The returned segments and the segment still open at the end of the
    loop make up the input; the open one is never returned. *)
Lemma construct_conversations_cover chat bd :
  valid_hours bd →
  ∃ segs open,
    construct_conversations chat bd = Ok segs
    ∧ concat segs ++ open = chat
    ∧ (chat ≠ [] → open ≠ [])
    ∧ Forall (span_ok (hours bd)) segs.
Proof.
  intros Hbd. rewrite construct_conversations_valid by done.
  destruct (seg_inv_chat (hours bd) chat) as [Hcov Hcl Hemp _ _ _].
  eexists _, _. repeat split; [exact Hcov| |exact Hcl].
  intros Hne Hnil. by destruct (Hemp Hnil) as (_ & _ & ?).
Qed.

(** Later messages only add segments after the ones already closed, and
    the open segment, if it is ever closed, is closed with the messages it
    has now at its front. *)
Lemma fold_conversations_grow td post st :
  conversation st ≠ [] →
  ∃ extra,
    conversations (fold_left (seg_step td) post st) = conversations st ++ extra
    ∧ (extra = []
       ∨ ∃ more rest, extra = (conversation st ++ more) :: rest).
Proof.
  revert st. induction post as [|m post IH]; intros st Hne; simpl.
  - exists []. by rewrite app_nil_r; auto.
  - unfold seg_step at 2.
    destruct (td <? Z.of_N (timestamp m) - Z.of_N (start_timestamp st)).
    + destruct (conversation st) as [|f r] eqn:Hc; [done|].
      edestruct (IH {| conversations := conversations st ++ [f :: r];
                       conversation := [m];
                       start_timestamp := timestamp m |})
        as (extra & -> & _); [done|].
      simpl. exists ((f :: r) :: extra). rewrite <- app_assoc. split; [done|].
      right. exists [], extra. by rewrite app_nil_r.
    + edestruct (IH {| conversations := conversations st;
                       conversation := conversation st ++ [m];
                       start_timestamp := start_timestamp st |})
        as (extra & -> & Hex).
      { simpl. intros Hnil. by apply app_eq_nil in Hnil as [_ ?]. }
      simpl in *. exists extra. split; [done|].
      destruct Hex as [->|(more & rest & ->)]; [by left|].
      right. exists ([m] ++ more), rest. by rewrite app_assoc.
Qed.







(** C1. The segment open when the input ends is never returned: for a
    non-empty input the concatenation of the returned segments is a
    proper prefix of the input, so it does not reproduce it. *)
Theorem construct_conversations_drops_open_segment chat bd :
  valid_hours bd → chat ≠ [] →
  ∃ segs open,
    construct_conversations chat bd = Ok segs
    ∧ concat segs ++ open = chat
    ∧ open ≠ []
    ∧ concat segs ≠ chat.
Proof.
  intros Hbd Hne.
  destruct (construct_conversations_cover chat bd Hbd)
    as (segs & open & Hrun & Hcov & Hopen & _).
  exists segs, open. repeat split; [done|done|by apply Hopen|].
  intros Heq. rewrite <- Hcov in Heq. apply (f_equal length) in Heq.
  rewrite length_app in Heq.
  destruct open; [by apply Hopen|simpl in Heq; lia].
Qed.

(** A chat of one message yields no segment at all. *)
Lemma construct_conversations_single m :
  construct_conversations [m] default_boundary_duration = Ok [].
Proof.
  rewrite construct_conversations_valid by apply valid_hours_default.
  simpl. unfold seg_step. simpl.
  by destruct (_ <? _).
Qed.

(** C4. With messages at [t0], [t0 + 1h] and [t0 + 3h] and the boundary of
    two hours, the call returns the single segment of the first two
    messages; the segment of the third message is still open when the
    loop ends and is not returned. *)
Theorem construct_conversations_three_messages t0 m0 m1 m2 :
  (2 * hour < t0)%N →
  construct_conversations (three_messages t0 m0 m1 m2) 2
  = Ok [take 2 (three_messages t0 m0 m1 m2)].
Proof.
  intros Ht0.
  rewrite construct_conversations_valid by apply valid_hours_default.
  unfold three_messages, hours, hour in *. simpl. unfold seg_step. simpl.
  destruct (Z.ltb_spec (2 * 3600000000) (Z.of_N t0 - 0)); [|lia]. simpl.
  destruct (Z.ltb_spec (2 * 3600000000)
              (Z.of_N (t0 + 3600000000) - Z.of_N t0)); [lia|]. simpl.
  destruct (Z.ltb_spec (2 * 3600000000)
              (Z.of_N (t0 + 3 * 3600000000) - Z.of_N t0)); [|lia]. done.
Qed.

(** ** The first filter of dataset assembly *)

(** What the test of the filter decides. *)
Lemma skipped_spec c :
  skipped c = true
  ↔ ∃ m, c = [m]
         ∧ (startswith (text m) (str "http") = true
            ∨ (length (text m) ≤ 10)%nat).
Proof.
  unfold skipped. split.
  - intros Hs. apply andb_true_iff in Hs as [Hlen Hm].
    apply Nat.eqb_eq in Hlen.
    destruct c as [|m [|m' c]]; simpl in Hlen; try done.
    exists m. split; [done|].
    apply orb_true_iff in Hm as [Hm|Hm]; [by left|].
    right. by apply Nat.leb_le.
  - intros (m & -> & Hm). simpl. apply orb_true_iff.
    destruct Hm as [Hm|Hm]; [by left|]. right. by apply Nat.leb_le.
Qed.

(** C3. A conversation of one message of exactly ten characters is
    dropped by the filter, whatever the text is: the test is
    [len(text) <= 10], not [len(text) < 10]. *)
Theorem filter_drops_ten_characters m :
  length (text m) = 10%nat → filtered_conversations [[m]] = [].
Proof.
  intros Hlen. unfold filtered_conversations. simpl.
  assert (skipped [m] = true) as ->; [|done].
  apply skipped_spec. exists m. split; [done|]. right. lia.
Qed.

(** A conversation of one message longer than ten characters that is
    not a URL is kept, and so is every conversation of more than one
    message. *)
Lemma filter_keeps c :
  skipped c = false → filtered_conversations [c] = [c].
Proof. intros Hs. unfold filtered_conversations. simpl. by rewrite Hs. Qed.

(** ** construct_example *)

Lemma slice_to_last {A} (l : list A) :
  slice l 0 (-1) = take (length l - 1) l.
Proof.
  unfold slice, clamp. simpl.
  rewrite Z.min_l by lia. simpl. f_equal. lia.
Qed.

Lemma slice_half_to_last {A} (l : list A) :
  slice l (Z.of_nat (length l) `div` 2) (-1)
  = take (length l - 1 - length l / 2) (drop (length l / 2) l).
Proof.
  assert (Z.of_nat (length l) `div` 2 = Z.of_nat (length l / 2)) as Hdiv
    by by rewrite Nat2Z.inj_div.
  assert (length l / 2 ≤ length l)%nat as Hhalf
    by (apply Nat.Div0.div_le_upper_bound; lia).
  unfold slice, clamp. rewrite Hdiv. clear Hdiv.
  generalize dependent (length l / 2)%nat. intros h Hh.
  destruct (Z.ltb_spec (Z.of_nat h) 0); [lia|].
  change (-1 <? 0) with true. cbv iota.
  rewrite Z.min_l by lia. rewrite Nat2Z.id. f_equal. lia.
Qed.

Lemma getitem_last {A} (l : list A) (x : A) :
  getitem (l ++ [x]) (-1) = Ok x.
Proof.
  unfold getitem. simpl. rewrite length_app. simpl.
  destruct (Z.ltb_spec (-1 + Z.of_nat (length l + 1)) 0); [lia|].
  destruct (Z.leb_spec (Z.of_nat (length l + 1))
              (-1 + Z.of_nat (length l + 1))); [lia|]. simpl.
  replace (Z.to_nat (-1 + Z.of_nat (length l + 1))) with (length l) by lia.
  by rewrite list_lookup_middle.
Qed.

Lemma getitem_last_nonempty {A} (l : list A) :
  l ≠ [] → ∃ x, last l = Some x ∧ getitem l (-1) = Ok x.
Proof.
  intros Hne. destruct (decide (l = [])) as [|_]; [done|].
  induction l as [|x l _] using rev_ind; [done|].
  exists x. split; [by rewrite last_snoc|apply getitem_last].
Qed.

(** What [construct_example] returns for a non-empty partial
    conversation, by the two cases of the budget test. *)
Lemma construct_example_run pc instr :
  pc ≠ [] →
  ∃ last_msg,
    last pc = Some last_msg
    ∧ construct_example pc instr
      = Ok {| instruction := instr;
              input :=
                (str "Conversation:" ++ nl
                 ++ (if (budget <? length (render (context_messages pc)))%nat
                     then render (second_half pc)
                     else render (context_messages pc))
                 ++ nl)
                ++ format_speaker (speaker last_msg) ++ str ": ";
              output := text last_msg |}.
Proof.
  intros Hne. destruct (getitem_last_nonempty pc Hne) as (x & Hlast & Hget).
  exists x. split; [done|].
  unfold construct_example.
  rewrite Hget, slice_to_last, slice_half_to_last.
  unfold mbind, result_bind.
  fold (context_messages pc). fold (second_half pc).
  change (256 * 4) with 1024.
  replace (1024 <? Z.of_nat (length (render (context_messages pc))))
    with (budget <? length (render (context_messages pc)))%nat; [done|].
  apply eq_iff_eq_true. rewrite Nat.ltb_lt, Z.ltb_lt. unfold budget. lia.
Qed.

(** C6. When the rendering of all the messages before the last one is
    longer than the budget of 1024 characters, the context of the example
    is the rendering of the messages from index [len // 2] up to the last
    one, excluded, each on its line, in order; this holds whatever the
    length of that second rendering is. *)
Theorem construct_example_over_budget pc instr :
  pc ≠ [] →
  (budget < length (render (context_messages pc)))%nat →
  ∃ last_msg,
    last pc = Some last_msg
    ∧ construct_example pc instr
      = Ok {| instruction := instr;
              input :=
                (str "Conversation:" ++ nl
                 ++ join nl (map render_line (second_half pc)) ++ nl)
                ++ format_speaker (speaker last_msg) ++ str ": ";
              output := text last_msg |}
    ∧ ∀ i, second_half pc !! i
           = if decide (length pc / 2 + i < length pc - 1)%nat
             then pc !! (length pc / 2 + i)%nat
             else None.
Proof.
  intros Hne Hover.
  destruct (construct_example_run pc instr Hne) as (x & Hlast & Hrun).
  exists x. split; [done|]. split.
  - rewrite Hrun. apply Nat.ltb_lt in Hover. by rewrite Hover.
  - intros i. unfold second_half. case_decide as Hi.
    + rewrite lookup_take_lt by lia. by rewrite lookup_drop.
    + apply lookup_ge_None. rewrite length_take, length_drop. lia.
Qed.

(** C7. The output of the example is the text of the last message, as
    it is. *)
Theorem construct_example_output pc instr :
  pc ≠ [] →
  ∃ ex last_msg,
    construct_example pc instr = Ok ex
    ∧ last pc = Some last_msg
    ∧ output ex = text last_msg.
Proof.
  intros Hne.
  destruct (construct_example_run pc instr Hne) as (x & Hlast & Hrun).
  eexists _, x. by rewrite Hrun.
Qed.


(** ** str.strip *)

Lemma lstrip_split s :
  ∃ k, s = k ++ lstrip s ∧ blank k.
Proof.
  induction s as [|c s (k & Hk & Hb)]; simpl.
  - by exists [].
  - destruct (isspace c) eqn:Hc.
    + exists (c :: k). split; [simpl; congruence|].
      unfold blank in *. simpl. by rewrite Hc.
    + by exists [].
Qed.

Lemma lstrip_head s c t : lstrip s = c :: t → isspace c = false.
Proof.
  induction s as [|c' s IH]; simpl; [done|].
  destruct (isspace c') eqn:Hc; [done|]. by intros [= <- _].
Qed.

Lemma lstrip_fixed c t : isspace c = false → lstrip (c :: t) = c :: t.
Proof. intros Hc. simpl. by rewrite Hc. Qed.

Lemma lstrip_idemp s : lstrip (lstrip s) = lstrip s.
Proof.
  destruct (lstrip s) as [|c t] eqn:Hs; [done|].
  by eapply lstrip_fixed, lstrip_head.
Qed.

Lemma lstrip_nil s : lstrip s = [] ↔ blank s.
Proof.
  unfold blank. induction s as [|c s IH]; simpl; [done|].
  destruct (isspace c); simpl; [exact IH|]. split; done.
Qed.

Lemma blank_rev s : blank (rev s) ↔ blank s.
Proof.
  unfold blank. rewrite !forallb_forall.
  split; intros Hs c Hc; apply Hs; by apply in_rev in Hc || apply in_rev.
Qed.

Lemma blank_app s1 s2 : blank (s1 ++ s2) ↔ blank s1 ∧ blank s2.
Proof. unfold blank. rewrite forallb_app. apply andb_true_iff. Qed.

Lemma strip_nil s : strip s = [] ↔ blank s.
Proof.
  unfold strip, rstrip.
  destruct (lstrip_split s) as (k & Hk & Hb).
  split.
  - intros Hs. apply (f_equal (@rev N)) in Hs. rewrite rev_involutive in Hs.
    simpl in Hs. apply (proj1 (lstrip_nil _)) in Hs.
    apply (proj1 (blank_rev _)) in Hs.
    rewrite Hk. by apply blank_app.
  - intros Hs. rewrite Hk in Hs. apply blank_app in Hs as [_ Hs].
    apply (proj2 (blank_rev _)) in Hs. apply (proj2 (lstrip_nil _)) in Hs.
    by rewrite Hs.
Qed.

(** Stripping twice is stripping once. *)
Lemma strip_idemp s : strip (strip s) = strip s.
Proof.
  unfold strip, rstrip.
  set (u := lstrip s).
  destruct (lstrip_split (rev u)) as (k & Hk & Hb).
  set (v := lstrip (rev u)) in *.
  assert (lstrip (rev v) = rev v) as Hl.
  { destruct (rev v) as [|c t] eqn:Hv; [done|].
    apply lstrip_fixed.
    assert (u = rev v ++ rev k) as Hu.
    { rewrite <- rev_app_distr, <- Hk. by rewrite rev_involutive. }
    rewrite Hv in Hu. simpl in Hu.
    by eapply (lstrip_head s). }
  rewrite Hl, rev_involutive. unfold v. by rewrite lstrip_idemp.
Qed.

(** ** extract_group_chats *)

Lemma insert_by_timestamp_perm m l : insert_by_timestamp m l ≡ₚ m :: l.
Proof.
  induction l as [|x l IH]; simpl; [done|].
  destruct (_ <=? _)%N; [done|]. rewrite IH. apply perm_swap.
Qed.

Lemma sorted_by_timestamp_perm chat : sorted_by_timestamp chat ≡ₚ chat.
Proof.
  induction chat as [|m chat IH]; simpl; [done|].
  rewrite insert_by_timestamp_perm. by rewrite IH.
Qed.

Lemma dict_append_lookup chats k msg k' chat m :
  dict_append chats k msg !! k' = Some chat → m ∈ chat →
  m = msg ∨ ∃ chat', chats !! k' = Some chat' ∧ m ∈ chat'.
Proof.
  unfold dict_append. intros Hl Hm.
  destruct (decide (k = k')) as [->|Hne].
  - rewrite lookup_insert_eq in Hl. injection Hl as <-.
    apply elem_of_app in Hm as [Hm|Hm].
    + right. destruct (chats !! k') as [chat'|]; simpl in *.
      * by exists chat'.
      * by apply elem_of_nil in Hm.
    + left. by apply list_elem_of_singleton in Hm.
  - rewrite lookup_insert_ne in Hl by done. right. by exists chat.
Qed.

Section ExtractFacts.
Context `{Runtime}.

Lemma row_body_ok chats row chats' :
  row_body chats row = Ok chats' →
  chats' = chats
  ∨ ∃ m, made_from row m ∧ chats' = dict_append chats row.1.1.1 m.
Proof.
  destruct row as [[[cn sp] t] ts]. unfold row_body.
  destruct (normalize_speaker sp) as [sp'|e]; simpl; [|done].
  destruct (parse_timestamp ts) as [ts'|e]; simpl; [|done].
  destruct (existsb _ (strip t)) eqn:Hobj; intros [= <-]; [by left|].
  right. eexists. split; [|done]. by split.
Qed.

Lemma for_each_row_body rows chats0 chats k chat m :
  for_each row_body chats0 rows = Ok chats →
  chats !! k = Some chat → m ∈ chat →
  (∃ chat0, chats0 !! k = Some chat0 ∧ m ∈ chat0)
  ∨ ∃ row, row ∈ rows ∧ made_from row m.
Proof.
  revert chats0. induction rows as [|row rows IH]; intros chats0; simpl.
  - intros [= <-] Hk Hm. left. by exists chat.
  - destruct (row_body chats0 row) as [chats1|e] eqn:Hrow; simpl; [|done].
    intros Hrun Hk Hm.
    destruct (IH chats1 Hrun Hk Hm) as [(chat1 & Hk1 & Hm1)|(r & Hr & Hmade)].
    + apply row_body_ok in Hrow as [->|(m' & Hmade & ->)].
      * left. by exists chat1.
      * destruct (dict_append_lookup _ _ _ _ _ _ Hk1 Hm1)
          as [->|(chat0 & Hk0 & Hm0)].
        -- right. exists row. split; [left|done].
        -- left. by exists chat0.
    + right. exists r. split; [by right|done].
Qed.

Lemma row_body_kept chats row chats' :
  row_body chats row = Ok chats' →
  existsb (fun char => (char =? 65532)%N) (strip (row_text_of row)) = false →
  ∃ m,
    text m = strip (row_text_of row)
    ∧ chats' = dict_append chats (row_chat_of row) m.
Proof.
  destruct row as [[[cn sp] t] ts]. unfold row_body, row_text_of, row_chat_of.
  simpl.
  destruct (normalize_speaker sp) as [sp'|e]; simpl; [|done].
  destruct (parse_timestamp ts) as [ts'|e]; simpl; [|done].
  intros Hrun Hobj. rewrite Hobj in Hrun. injection Hrun as <-.
  by exists {| speaker := sp'; text := strip t; timestamp := ts' |}.
Qed.

Lemma dict_append_keeps chats (k : pystr) msg (k' : pystr) chat m :
  chats !! k' = Some chat → m ∈ chat →
  ∃ chat', dict_append chats k msg !! k' = Some chat' ∧ m ∈ chat'.
Proof.
  intros Hk Hm. unfold dict_append.
  destruct (decide (k = k')) as [->|Hne].
  - rewrite lookup_insert_eq, Hk. eexists. split; [done|].
    apply elem_of_app. by left.
  - rewrite lookup_insert_ne by done. by exists chat.
Qed.

Lemma dict_append_new chats (k : pystr) msg :
  ∃ chat', dict_append chats k msg !! k = Some chat' ∧ msg ∈ chat'.
Proof.
  unfold dict_append. rewrite lookup_insert_eq. eexists. split; [done|].
  apply elem_of_app. right. left.
Qed.

Lemma for_each_row_body_keeps rows chats0 chats (k : pystr) chat m :
  for_each row_body chats0 rows = Ok chats →
  chats0 !! k = Some chat → m ∈ chat →
  ∃ chat', chats !! k = Some chat' ∧ m ∈ chat'.
Proof.
  revert chats0 chat. induction rows as [|row rows IH]; intros chats0 chat.
  - simpl. intros [= <-] Hk Hm. by exists chat.
  - simpl. destruct (row_body chats0 row) as [chats1|e] eqn:Hrow; simpl;
      [|done].
    intros Hrun Hk Hm.
    apply row_body_ok in Hrow as [->|(m' & _ & ->)]; [by eapply IH|].
    destruct (dict_append_keeps chats0 row.1.1.1 m' k chat m Hk Hm)
      as (chat1 & Hk1 & Hm1).
    by eapply IH.
Qed.

(** A row without object replacement character leaves its message in
    the chat of its name. *)
Lemma for_each_row_body_retains rows chats0 chats row :
  for_each row_body chats0 rows = Ok chats →
  row ∈ rows →
  existsb (fun char => (char =? 65532)%N) (strip (row_text_of row)) = false →
  ∃ chat m,
    chats !! row_chat_of row = Some chat ∧ m ∈ chat
    ∧ text m = strip (row_text_of row).
Proof.
  revert chats0. induction rows as [|row0 rows IH]; intros chats0.
  - by intros _ ?%elem_of_nil.
  - simpl. destruct (row_body chats0 row0) as [chats1|e] eqn:Hrow0; simpl;
      [|done].
    intros Hrun [->|Hin]%elem_of_cons Hobj; [|by eapply IH].
    destruct (row_body_kept _ _ _ Hrow0 Hobj) as (m & Hm & ->).
    destruct (dict_append_new chats0 (row_chat_of row0) m)
      as (chat1 & Hk1 & Hm1).
    destruct (for_each_row_body_keeps _ _ _ _ _ _ Hrun Hk1 Hm1)
      as (chat & Hk & Hm').
    by exists chat, m.
Qed.

(** A run that finds the store: the four accesses, then the loop over
    the result set and the sort of every chat. *)
Lemma extract_group_chats_found w chat_name rows tr :
  path_exists w (CHATDB_PATH w) = true →
  store w (CHATDB_PATH w) (like_param chat_name) = Ok rows →
  extract_group_chats w chat_name tr
  = (tr ++ read_events w chat_name,
     match for_each row_body ∅ (filtered_messages rows) with
     | Ok chats => Ok (sorted_by_timestamp <$> chats)
     | Raise e => Raise e
     end).
Proof.
  intros Hex Hst. unfold store in Hst.
  destruct (db_connect w (CHATDB_PATH w)) as [[]|e] eqn:Hc; [|done].
  destruct (db_execute w (CHATDB_PATH w) (like_param chat_name))
    as [[]|e] eqn:He; [|done].
  unfold mbind, result_bind in Hst.
  unfold extract_group_chats, os_path_exists, read_result_set, emit, lift.
  unfold mbind, io_bind, mret, io_ret, result_bind, raise.
  unfold like_param, read_events in *.
  rewrite Hex. cbn [negb]. rewrite Hc, He, Hst.
  rewrite <- !app_assoc. simpl.
  by destruct (for_each row_body ∅ (filtered_messages rows)).
Qed.

End ExtractFacts.

Section ExtractProperties.
Context `{Runtime}.

(** The outcome of a run, by the cases of the source: the store is
    missing, the query fails, or the rows are processed. *)
Lemma extract_group_chats_result w chat_name tr :
  (extract_group_chats w chat_name tr).2
  = if path_exists w (CHATDB_PATH w) then
      match store w (CHATDB_PATH w) (like_param chat_name) with
      | Ok rows =>
          match for_each row_body ∅ (filtered_messages rows) with
          | Ok chats => Ok (sorted_by_timestamp <$> chats)
          | Raise e => Raise e
          end
      | Raise e => Raise e
      end
    else Raise (FileNotFoundError (CHATDB_PATH w)).
Proof.
  destruct (path_exists w (CHATDB_PATH w)) eqn:Hex.
  - destruct (store w (CHATDB_PATH w) (like_param chat_name))
      as [rows|e] eqn:Hst.
    + by rewrite (extract_group_chats_found w chat_name rows tr).
    + unfold store in Hst.
      unfold extract_group_chats, os_path_exists, read_result_set, emit, lift.
      unfold mbind, io_bind, mret, io_ret, result_bind, raise.
      unfold mbind, result_bind, like_param in Hst. rewrite Hex. cbn [negb].
      destruct (db_connect w (CHATDB_PATH w)) as [[]|e1]; [|by simplify_eq].
      destruct (db_execute w (CHATDB_PATH w) _) as [[]|e2];
        [|by simplify_eq].
      by rewrite Hst.
  - unfold extract_group_chats, os_path_exists, emit, raise.
    unfold mbind, io_bind, mret, io_ret. by rewrite Hex.
Qed.

(** C8. When the path of the store does not exist, the extraction
    raises [FileNotFoundError] with that path, whatever the pattern is;
    the existence test is the only access it has made: the store is
    neither opened nor queried. *)
Theorem extract_group_chats_source_not_found w chat_name tr :
  path_exists w (CHATDB_PATH w) = false →
  extract_group_chats w chat_name tr
  = (tr ++ [EvExists (CHATDB_PATH w)],
     Raise (FileNotFoundError (CHATDB_PATH w))).
Proof.
  intros Hex.
  unfold extract_group_chats, os_path_exists, emit, raise.
  unfold mbind, io_bind, mret, io_ret. by rewrite Hex.
Qed.

(** C9. When the query yields a row whose resolved speaker is the empty
    string, the extraction raises instead of returning a mapping: the
    row itself fails with [IndexError] at [speaker[0]] once the rows
    before it have been processed. *)
Theorem extract_group_chats_empty_speaker w chat_name rows before r after tr :
  path_exists w (CHATDB_PATH w) = true →
  store w (CHATDB_PATH w) (like_param chat_name) = Ok rows →
  rows = before ++ r :: after →
  (∃ row, select_row r = Some row ∧ row_speaker_of row = Some []) →
  ∃ e,
    (extract_group_chats w chat_name tr).2 = Raise e
    ∧ (is_ok (for_each row_body ∅ (filtered_messages before)) = true →
       e = IndexError).
Proof.
  intros Hex Hst -> (row & Hsel & Hsp).
  rewrite extract_group_chats_result, Hex, Hst.
  unfold filtered_messages. rewrite omap_app. simpl. rewrite Hsel.
  rewrite for_each_app.
  destruct (for_each row_body ∅ (omap select_row before)) as [chats|e]; simpl.
  - destruct row as [[[cn sp] t] ts]. unfold row_speaker_of in Hsp.
    simpl in Hsp. subst sp. unfold row_body. simpl.
    by exists IndexError.
  - by exists e.
Qed.

(** C2, as the code has it. When the extraction returns, every message
    of the mapping has the stripped text of a row of the result set:
    stripping it again changes nothing and it has no object replacement
    character, and it is empty exactly when the row's text is blank. And
    every row of the result set whose stripped text has no object
    replacement character is retained, as a message with that stripped
    text in the chat of the row's name: a row of blank text is retained,
    with the empty text. *)
Theorem extract_group_chats_texts_stripped w chat_name tr chats :
  (extract_group_chats w chat_name tr).2 = Ok chats →
  ∃ rows,
    store w (CHATDB_PATH w) (like_param chat_name) = Ok rows
    ∧ (∀ (k : pystr) chat m,
         chats !! k = Some chat → m ∈ chat →
         ∃ row,
           row ∈ filtered_messages rows
           ∧ text m = strip (row_text_of row)
           ∧ strip (text m) = text m
           ∧ (text m = [] ↔ blank (row_text_of row))
           ∧ existsb (fun char => (char =? 65532)%N) (text m) = false)
    ∧ (∀ row,
         row ∈ filtered_messages rows →
         existsb (fun char => (char =? 65532)%N) (strip (row_text_of row))
         = false →
         ∃ chat m,
           chats !! row_chat_of row = Some chat ∧ m ∈ chat
           ∧ text m = strip (row_text_of row))
    ∧ (∀ row,
         row ∈ filtered_messages rows → blank (row_text_of row) →
         ∃ chat m,
           chats !! row_chat_of row = Some chat ∧ m ∈ chat ∧ text m = []).
Proof.
  rewrite extract_group_chats_result.
  destruct (path_exists w (CHATDB_PATH w)); [|done].
  destruct (store w (CHATDB_PATH w) (like_param chat_name)) as [rows|e];
    [|done].
  destruct (for_each row_body ∅ (filtered_messages rows)) as [chats0|e]
    eqn:Hrun; [|done].
  intros [= <-]. exists rows. split; [done|].
  assert (∀ row,
            row ∈ filtered_messages rows →
            existsb (fun char => (char =? 65532)%N) (strip (row_text_of row))
            = false →
            ∃ chat m,
              (sorted_by_timestamp <$> chats0) !! row_chat_of row = Some chat
              ∧ m ∈ chat ∧ text m = strip (row_text_of row)) as Hkept.
  { intros row Hrow Hobj.
    destruct (for_each_row_body_retains _ _ _ _ Hrun Hrow Hobj)
      as (chat & m & Hk & Hm & Ht).
    exists (sorted_by_timestamp chat), m. rewrite lookup_fmap, Hk.
    split; [done|]. split; [by rewrite sorted_by_timestamp_perm|done]. }
  split; [|split; [exact Hkept|]].
  - intros k chat m Hk Hm. rewrite lookup_fmap in Hk.
    destruct (chats0 !! k) as [chat0|] eqn:Hk0; [|done].
    simpl in Hk. injection Hk as <-.
    rewrite sorted_by_timestamp_perm in Hm.
    destruct (for_each_row_body _ _ _ _ _ _ Hrun Hk0 Hm)
      as [(c & Hc & _)|(row & Hrow & Htext & Hobj)].
    { by rewrite lookup_empty in Hc. }
    exists row. repeat split; try done.
    + rewrite Htext. apply strip_idemp.
    + rewrite Htext. apply strip_nil.
    + rewrite Htext. apply strip_nil.
  - intros row Hrow Hblank. apply strip_nil in Hblank.
    destruct (Hkept row Hrow) as (chat & m & Hk & Hm & Ht).
    { by rewrite Hblank. }
    exists chat, m. by rewrite Ht, Hblank.
Qed.

End ExtractProperties.

(** * Sample runs *)


(** The chat of one message, where the missing flush loses everything. *)
Lemma construct_conversations_drops_open_segment_witness :
  valid_hours 2 ∧ [ten_characters] ≠ []
  ∧ ∃ segs open,
      construct_conversations [ten_characters] 2 = Ok segs
      ∧ concat segs ++ open = [ten_characters]
      ∧ open ≠ []
      ∧ concat segs ≠ [ten_characters].
Proof.
  split; [apply valid_hours_default|]. split; [discriminate|].
  apply (construct_conversations_drops_open_segment [ten_characters] 2).
  - apply valid_hours_default.
  - discriminate.
Defined.

Lemma construct_conversations_three_messages_witness :
  (2 * hour < noon)%N
  ∧ construct_conversations
      (three_messages noon (Some (str "Al"), str "a")
         (Some (str "Bo"), str "b") (None, str "c")) 2
    = Ok [take 2 (three_messages noon (Some (str "Al"), str "a")
                    (Some (str "Bo"), str "b") (None, str "c"))].
Proof.
  split; [reflexivity|].
  apply (construct_conversations_three_messages noon). reflexivity.
Defined.




(** What the call returns on the afternoon chat: two segments, the
    message of the evening is not returned. *)
Example construct_conversations_afternoon :
  construct_conversations afternoon_chat 2
  = Ok [take 2 afternoon_chat; take 1 (drop 2 afternoon_chat)].
Proof. reflexivity. Qed.

(** A boundary falls between messages ninety minutes apart when the
    later one is more than the boundary after the first of the segment. *)
Example construct_conversations_anchor :
  construct_conversations
    [message None "a" noon; message None "b" (noon + 5400000000);
     message None "c" (noon + 10800000000);
     message None "d" (noon + 21600000000)] 2
  = Ok [[message None "a" noon; message None "b" (noon + 5400000000)];
        [message None "c" (noon + 10800000000)]].
Proof. reflexivity. Qed.

(** Under the sentinel the window starts at [datetime.min], not at the
    first message: one hour and two and a half hours after [datetime.min]
    fall in two segments. *)
Example construct_conversations_sentinel :
  construct_conversations
    [message None "a" 3600000000; message None "b" 9000000000;
     message None "c" 20000000000] 2
  = Ok [[message None "a" 3600000000]; [message None "b" 9000000000]].
Proof. reflexivity. Qed.

Lemma filter_drops_ten_characters_witness :
  length (text ten_characters) = 10%nat
  ∧ filtered_conversations [[ten_characters]] = [].
Proof.
  split; [reflexivity|].
  apply (filter_drops_ten_characters ten_characters). reflexivity.
Defined.

(** The single messages of the specification: the URL and the short
    greeting are dropped, the question is kept. *)
Example filter_samples :
  filtered_conversations
    [[message (Some "Al") "http://example.com" noon];
     [message (Some "Al") "hi" noon];
     [message (Some "Al") "Did you see that movie?" noon]]
  = [[message (Some "Al") "Did you see that movie?" noon]].
Proof. reflexivity. Qed.

Lemma construct_example_over_budget_witness :
  long_chat ≠ []
  ∧ (budget < length (render (context_messages long_chat)))%nat
  ∧ (budget < length (render (second_half long_chat)))%nat
  ∧ ∃ last_msg,
      last long_chat = Some last_msg
      ∧ construct_example long_chat (str "Reply.")
        = Ok {| instruction := str "Reply.";
                input :=
                  (str "Conversation:" ++ nl
                   ++ join nl (map render_line (second_half long_chat)) ++ nl)
                  ++ format_speaker (speaker last_msg) ++ str ": ";
                output := text last_msg |}
      ∧ ∀ i, second_half long_chat !! i
             = if decide (length long_chat / 2 + i < length long_chat - 1)%nat
               then long_chat !! (length long_chat / 2 + i)%nat
               else None.
Proof.
  split; [discriminate|].
  split; [apply Nat.ltb_lt; vm_compute; reflexivity|].
  split; [apply Nat.ltb_lt; vm_compute; reflexivity|].
  apply (construct_example_over_budget long_chat (str "Reply.")).
  - discriminate.
  - apply Nat.ltb_lt. vm_compute. reflexivity.
Defined.

Lemma construct_example_output_witness :
  afternoon_chat ≠ []
  ∧ ∃ ex last_msg,
      construct_example afternoon_chat (str "Reply.") = Ok ex
      ∧ last afternoon_chat = Some last_msg
      ∧ output ex = text last_msg.
Proof.
  split; [discriminate|].
  apply (construct_example_output afternoon_chat (str "Reply.")).
  discriminate.
Defined.


(** The example built from the first three messages of the afternoon. *)
Example construct_example_sample :
  construct_example (take 3 afternoon_chat) (str "Reply.")
  = Ok {| instruction := str "Reply.";
          input := str "Conversation:" ++ nl
                   ++ str "Al: Dinner at eight?" ++ nl
                   ++ str "Bo: Sure, see you then" ++ nl
                   ++ str "None: ";
          output := str "Did you see that movie?" |}.
Proof. reflexivity. Qed.

(** ** The extraction on sample stores *)

Lemma extract_group_chats_source_not_found_witness :
  path_exists (world_of false []) (CHATDB_PATH (world_of false [])) = false
  ∧ extract_group_chats (world_of false []) (str "Friends") []
    = ([EvExists (CHATDB_PATH (world_of false []))],
       Raise (FileNotFoundError (CHATDB_PATH (world_of false [])))).
Proof.
  split; [reflexivity|].
  apply (extract_group_chats_source_not_found
           (world_of false []) (str "Friends") []).
  reflexivity.
Defined.

Lemma extract_group_chats_empty_speaker_witness :
  ∃ e,
    (extract_group_chats (world_of true nameless_rows) (str "Friends") []).2
    = Raise e
    ∧ (is_ok (for_each row_body ∅ (filtered_messages (take 1 nameless_rows)))
       = true → e = IndexError).
Proof.
  apply (extract_group_chats_empty_speaker
           (world_of true nameless_rows) (str "Friends") nameless_rows
           (take 1 nameless_rows)
           (store_row "Friends" "" "Sure, see you then" "2023-01-01 12:05:00")
           [] []).
  - reflexivity.
  - reflexivity.
  - reflexivity.
  - eexists. split; reflexivity.
Defined.

Lemma blank_rows_run :
  (extract_group_chats (world_of true blank_rows) (str "Friends") []).2
  = Ok {[ str "Friends" := blank_chat ]}.
Proof. vm_compute. reflexivity. Qed.

Lemma blank_chat_lookup :
  ({[ str "Friends" := blank_chat ]} : gmap pystr (list Message))
    !! str "Friends" = Some blank_chat.
Proof. apply lookup_singleton_eq. Qed.

(** C2, counterexample. The message of three spaces passes the filter
    of the query and is retained with the empty text. *)
Lemma extract_group_chats_keeps_blank_text :
  ∃ chats,
    (extract_group_chats (world_of true blank_rows) (str "Friends") []).2
    = Ok chats
    ∧ ¬ no_empty_text chats.
Proof.
  eexists. split; [apply blank_rows_run|].
  intros Hno.
  apply (Hno (str "Friends") blank_chat
           {| speaker := Some (str "Bo"); text := [];
              timestamp := noon + 300000000 |}).
  - apply blank_chat_lookup.
  - unfold blank_chat. apply list_elem_of_further, list_elem_of_here.
  - reflexivity.
Qed.

Lemma extract_group_chats_texts_stripped_witness :
  ∃ rows,
    store (world_of true blank_rows) (CHATDB_PATH (world_of true blank_rows))
      (like_param (str "Friends")) = Ok rows
    ∧ (∀ (k : pystr) chat m,
         ({[ str "Friends" := blank_chat ]} : gmap pystr (list Message)) !! k
         = Some chat → m ∈ chat →
         ∃ row,
           row ∈ filtered_messages rows
           ∧ text m = strip (row_text_of row)
           ∧ strip (text m) = text m
           ∧ (text m = [] ↔ blank (row_text_of row))
           ∧ existsb (fun char => (char =? 65532)%N) (text m) = false)
    ∧ (∀ row,
         row ∈ filtered_messages rows →
         existsb (fun char => (char =? 65532)%N) (strip (row_text_of row))
         = false →
         ∃ chat m,
           ({[ str "Friends" := blank_chat ]} : gmap pystr (list Message))
             !! row_chat_of row = Some chat
           ∧ m ∈ chat ∧ text m = strip (row_text_of row))
    ∧ (∀ row,
         row ∈ filtered_messages rows → blank (row_text_of row) →
         ∃ chat m,
           ({[ str "Friends" := blank_chat ]} : gmap pystr (list Message))
             !! row_chat_of row = Some chat
           ∧ m ∈ chat ∧ text m = []).
Proof.
  apply (extract_group_chats_texts_stripped
           (world_of true blank_rows) (str "Friends") []
           {[ str "Friends" := blank_chat ]}).
  apply blank_rows_run.
Defined.

(** * Further properties *)

(** ** construct_conversations: what is returned and what is not *)

Lemma timedelta_hours_invalid bd :
  ¬ valid_hours bd → timedelta_hours bd = Raise OverflowError.
Proof.
  intros Hbd. unfold timedelta_hours.
  destruct (Z.leb_spec (-999999999) (bd `div` 24));
    destruct (Z.leb_spec (bd `div` 24) 999999999); try done.
  destruct Hbd. by split.
Qed.

(** X1. Whatever the order of the input, every segment returned is
    non-empty and the segments are consecutive runs of the input: put end
    to end they are a prefix of it. *)
Theorem construct_conversations_runs chat bd :
  valid_hours bd →
  ∃ segs,
    construct_conversations chat bd = Ok segs
    ∧ Forall (fun seg => seg ≠ []) segs
    ∧ concat segs `prefix_of` chat.
Proof.
  intros Hbd.
  destruct (construct_conversations_cover chat bd Hbd)
    as (segs & open & Hrun & Hcov & _ & Hspan).
  exists segs. repeat split; [done| |by exists open].
  eapply Forall_impl; [exact Hspan|]. by intros [|f r] Hs.
Qed.

Lemma construct_conversations_runs_witness :
  valid_hours 2
  ∧ ∃ segs,
      construct_conversations (rev afternoon_chat) 2 = Ok segs
      ∧ Forall (fun seg => seg ≠ []) segs
      ∧ concat segs `prefix_of` rev afternoon_chat.
Proof.
  split; [apply valid_hours_default|].
  apply (construct_conversations_runs (rev afternoon_chat) 2).
  apply valid_hours_default.
Defined.

(** X2. With a boundary [timedelta] refuses, the call raises
    [OverflowError] at the first message; only the empty chat returns,
    with no segment. *)
Theorem construct_conversations_overflow chat bd :
  ¬ valid_hours bd →
  construct_conversations chat bd
  = match chat with
    | [] => Ok []
    | _ :: _ => Raise OverflowError
    end.
Proof.
  intros Hbd. destruct chat as [|m chat]; [done|].
  unfold construct_conversations, seg_loop. simpl.
  assert (seg_body bd seg_init m = Raise OverflowError) as ->; [|done].
  unfold seg_body. by rewrite timedelta_hours_invalid.
Qed.

Lemma construct_conversations_overflow_witness :
  ¬ valid_hours 24000000000
  ∧ construct_conversations afternoon_chat 24000000000 = Raise OverflowError.
Proof.
  assert (¬ valid_hours 24000000000) as Hbd.
  { intros [_ Hhi]. vm_compute in Hhi. by apply Hhi. }
  split; [exact Hbd|].
  apply (construct_conversations_overflow afternoon_chat 24000000000 Hbd).
Defined.

(** X3. Messages that arrive later never change the segments already
    returned: the segments of a chat are a prefix of the segments of any
    extension of it. *)
Theorem construct_conversations_extends chat more bd :
  valid_hours bd →
  ∃ segs extra,
    construct_conversations chat bd = Ok segs
    ∧ construct_conversations (chat ++ more) bd = Ok (segs ++ extra).
Proof.
  intros Hbd. rewrite !construct_conversations_valid by done.
  rewrite fold_left_app.
  pose proof (seg_inv_chat (hours bd) chat) as [_ _ Hemp _ _ _].
  set (st := fold_left (seg_step (hours bd)) chat seg_init) in *.
  destruct (decide (conversation st = [])) as [Hnil|Hne].
  - destruct (Hemp Hnil) as (_ & -> & _). by eexists [], _.
  - destruct (fold_conversations_grow (hours bd) more st Hne)
      as (extra & -> & _).
    by eexists _, extra.
Qed.

Lemma construct_conversations_extends_witness :
  valid_hours 2
  ∧ ∃ segs extra,
      construct_conversations (take 3 afternoon_chat) 2 = Ok segs
      ∧ construct_conversations (take 3 afternoon_chat ++ drop 3 afternoon_chat) 2
        = Ok (segs ++ extra).
Proof.
  split; [apply valid_hours_default|].
  apply (construct_conversations_extends
           (take 3 afternoon_chat) (drop 3 afternoon_chat) 2).
  apply valid_hours_default.
Defined.

(** X4. A last message more than the boundary after every message
    before it closes the open segment: the segments returned then hold
    exactly the messages before it. *)
Theorem construct_conversations_closed_by_late_message chat m bd :
  valid_hours bd →
  (∀ x, x ∈ chat → hours bd < gap x m) →
  ∃ segs,
    construct_conversations (chat ++ [m]) bd = Ok segs
    ∧ concat segs = chat.
Proof.
  intros Hbd Hlate. rewrite construct_conversations_valid by done.
  eexists. split; [done|]. rewrite fold_left_app. simpl.
  pose proof (seg_inv_chat (hours bd) chat) as [Hcov _ Hemp Hanc _ _].
  set (st := fold_left (seg_step (hours bd)) chat seg_init) in *.
  unfold seg_step. destruct (conversation st) as [|f r] eqn:Hc.
  - destruct (Hemp eq_refl) as (_ & Hcs & ->).
    destruct (_ <? _); simpl; by rewrite ?Hcs.
  - assert (hours bd < gap f m) as Hf.
    { apply Hlate. rewrite <- Hcov. apply elem_of_app. right. left. }
    unfold gap in Hf.
    destruct (Z.ltb_spec (hours bd)
                (Z.of_N (timestamp m) - Z.of_N (start_timestamp st)))
      as [_|Hle].
    + simpl. rewrite concat_app. simpl. by rewrite app_nil_r.
    + destruct (Hanc f r eq_refl) as [Heq|(Heq & _)]; rewrite Heq in Hle;
        unfold datetime_min in *; lia.
Qed.

Lemma construct_conversations_closed_by_late_message_witness :
  valid_hours 2
  ∧ (∀ x, x ∈ take 3 afternoon_chat →
          hours 2 < gap x (message (Some "Al") "Not yet" (noon + 6 * hour)))
  ∧ ∃ segs,
      construct_conversations
        (take 3 afternoon_chat
         ++ [message (Some "Al") "Not yet" (noon + 6 * hour)]) 2
      = Ok segs
      ∧ concat segs = take 3 afternoon_chat.
Proof.
  assert (∀ x, x ∈ take 3 afternoon_chat →
               hours 2 < gap x (message (Some "Al") "Not yet"
                                  (noon + 6 * hour))) as Hlate.
  { intros x Hx. simpl in Hx.
    apply elem_of_cons in Hx as [->|Hx]; [by vm_compute|].
    apply elem_of_cons in Hx as [->|Hx]; [by vm_compute|].
    apply elem_of_cons in Hx as [->|Hx]; [by vm_compute|].
    by apply elem_of_nil in Hx. }
  split; [apply valid_hours_default|]. split; [exact Hlate|].
  apply (construct_conversations_closed_by_late_message
           (take 3 afternoon_chat)
           (message (Some "Al") "Not yet" (noon + 6 * hour)) 2).
  - apply valid_hours_default.
  - exact Hlate.
Defined.

Lemma seg_step_within td f acc r :
  (∀ m, m ∈ r → gap f m ≤ td) →
  conversations
    (fold_left (seg_step td) r
       {| conversations := []; conversation := acc;
          start_timestamp := timestamp f |}) = [].
Proof.
  revert acc. induction r as [|m r IH]; intros acc Hin; simpl; [done|].
  unfold seg_step at 2. simpl.
  assert (gap f m ≤ td) as Hm by (apply Hin; left). unfold gap in Hm.
  destruct (Z.ltb_spec td (Z.of_N (timestamp m) - Z.of_N (timestamp f)));
    [lia|].
  apply IH. intros x Hx. apply Hin. by right.
Qed.

(** X5. A chat whose messages all lie within the boundary of its first
    message is one open segment to the end: the call returns no segment
    and all of the chat is lost. *)
Theorem construct_conversations_single_window f r bd :
  valid_hours bd →
  hours bd < Z.of_N (timestamp f) →
  (∀ m, m ∈ r → gap f m ≤ hours bd) →
  construct_conversations (f :: r) bd = Ok [].
Proof.
  intros Hbd Hf Hin. rewrite construct_conversations_valid by done.
  simpl. unfold seg_step at 2. simpl.
  destruct (Z.ltb_spec (hours bd) (Z.of_N (timestamp f) - 0)); [|lia].
  by rewrite seg_step_within.
Qed.

Lemma construct_conversations_single_window_witness :
  valid_hours 2
  ∧ hours 2 < Z.of_N (timestamp (message (Some "Al") "Dinner at eight?" noon))
  ∧ (∀ m, m ∈ [message (Some "Bo") "Sure, see you then" (noon + hour)] →
          gap (message (Some "Al") "Dinner at eight?" noon) m ≤ hours 2)
  ∧ construct_conversations
      [message (Some "Al") "Dinner at eight?" noon;
       message (Some "Bo") "Sure, see you then" (noon + hour)] 2
    = Ok [].
Proof.
  assert (∀ m, m ∈ [message (Some "Bo") "Sure, see you then" (noon + hour)] →
               gap (message (Some "Al") "Dinner at eight?" noon) m ≤ hours 2)
    as Hin.
  { intros m Hm. apply list_elem_of_singleton in Hm as ->.
    vm_compute. discriminate. }
  split; [apply valid_hours_default|]. split; [by vm_compute|].
  split; [exact Hin|].
  apply (construct_conversations_single_window
           (message (Some "Al") "Dinner at eight?" noon)
           [message (Some "Bo") "Sure, see you then" (noon + hour)] 2).
  - apply valid_hours_default.
  - by vm_compute.
  - exact Hin.
Defined.

(** ** construct_example: both sides of the budget *)

Lemma render_app a b :
  render (a ++ b)
  = match a, b with
    | [], _ => render b
    | _, [] => render a
    | _ :: _, _ :: _ => render a ++ nl ++ render b
    end.
Proof.
  unfold render. induction a as [|x a IH]; [done|].
  destruct b as [|y b]; [by rewrite app_nil_r|].
  destruct a as [|x' a]; [done|].
  change (join nl (map render_line ((x :: x' :: a) ++ y :: b)))
    with (render_line x ++ nl
          ++ join nl (map render_line ((x' :: a) ++ y :: b))).
  rewrite IH.
  change (join nl (map render_line (x :: x' :: a)))
    with (render_line x ++ nl ++ join nl (map render_line (x' :: a))).
  by rewrite <- !app_assoc.
Qed.

Lemma context_messages_split pc :
  context_messages pc = take (length pc / 2) pc ++ second_half pc.
Proof.
  unfold context_messages, second_half. rewrite take_take_drop. f_equal.
  generalize (length pc). intros n.
  assert (n / 2 ≤ n - 1)%nat; [|lia].
  destruct n as [|[|n]]; [done|simpl; lia|].
  apply Nat.Div0.div_le_upper_bound. lia.
Qed.

Lemma second_half_suffix pc :
  render (second_half pc) `suffix_of` render (context_messages pc).
Proof.
  rewrite context_messages_split, render_app.
  destruct (take (length pc / 2) pc) as [|x a]; [done|].
  destruct (second_half pc) as [|y b]; [by apply suffix_nil|].
  exists (render (x :: a) ++ nl). by rewrite <- app_assoc.
Qed.

(** X6. When the rendering of the messages before the last one fits the
    budget, the context of the example is that rendering: every message
    but the last, each on its line, in order. *)
Theorem construct_example_within_budget pc instr :
  pc ≠ [] →
  (length (render (context_messages pc)) ≤ budget)%nat →
  ∃ last_msg,
    last pc = Some last_msg
    ∧ construct_example pc instr
      = Ok {| instruction := instr;
              input :=
                (str "Conversation:" ++ nl
                 ++ join nl (map render_line (context_messages pc)) ++ nl)
                ++ format_speaker (speaker last_msg) ++ str ": ";
              output := text last_msg |}.
Proof.
  intros Hne Hfit.
  destruct (construct_example_run pc instr Hne) as (x & Hlast & Hrun).
  exists x. split; [done|]. rewrite Hrun.
  destruct (Nat.ltb_spec budget (length (render (context_messages pc))));
    [lia|done].
Qed.

Lemma construct_example_within_budget_witness :
  afternoon_chat ≠ []
  ∧ (length (render (context_messages afternoon_chat)) ≤ budget)%nat
  ∧ ∃ last_msg,
      last afternoon_chat = Some last_msg
      ∧ construct_example afternoon_chat (str "Reply.")
        = Ok {| instruction := str "Reply.";
                input :=
                  (str "Conversation:" ++ nl
                   ++ join nl (map render_line (context_messages afternoon_chat))
                   ++ nl)
                  ++ format_speaker (speaker last_msg) ++ str ": ";
                output := text last_msg |}.
Proof.
  split; [discriminate|].
  split; [apply Nat.leb_le; vm_compute; reflexivity|].
  apply (construct_example_within_budget afternoon_chat (str "Reply.")).
  - discriminate.
  - apply Nat.leb_le. vm_compute. reflexivity.
Defined.

(** X7. The call raises [IndexError] on the empty partial conversation
    and returns an example on every other one. *)
Theorem construct_example_defined pc instr :
  match pc with
  | [] => construct_example pc instr = Raise IndexError
  | _ :: _ => is_ok (construct_example pc instr) = true
  end.
Proof.
  destruct pc as [|x pc]; [done|].
  destruct (construct_example_run (x :: pc) instr) as (y & _ & ->); done.
Qed.

(** X8. Whichever side of the budget, the context of the example is the
    end of the full rendering of the messages before the last: the
    halving only drops text from the front. *)
Theorem construct_example_context_suffix pc instr :
  pc ≠ [] →
  ∃ ex context last_msg,
    construct_example pc instr = Ok ex
    ∧ last pc = Some last_msg
    ∧ input ex
      = (str "Conversation:" ++ nl ++ context ++ nl)
        ++ format_speaker (speaker last_msg) ++ str ": "
    ∧ context `suffix_of` render (context_messages pc).
Proof.
  intros Hne.
  destruct (construct_example_run pc instr Hne) as (x & Hlast & Hrun).
  eexists _, _, x. split; [exact Hrun|]. split; [done|].
  split; [reflexivity|].
  destruct (_ <? _)%nat; [apply second_half_suffix|done].
Qed.

Lemma construct_example_context_suffix_witness :
  long_chat ≠ []
  ∧ ∃ ex context last_msg,
      construct_example long_chat (str "Reply.") = Ok ex
      ∧ last long_chat = Some last_msg
      ∧ input ex
        = (str "Conversation:" ++ nl ++ context ++ nl)
          ++ format_speaker (speaker last_msg) ++ str ": "
      ∧ context `suffix_of` render (context_messages long_chat).
Proof.
  split; [discriminate|].
  apply (construct_example_context_suffix long_chat (str "Reply.")).
  discriminate.
Defined.

(** ** The filter and the expansion into partial conversations *)

Lemma filtered_conversations_elem convs c :
  c ∈ filtered_conversations convs ↔ c ∈ convs ∧ skipped c = false.
Proof.
  unfold filtered_conversations. rewrite !list_elem_of_In, filter_In.
  by rewrite negb_true_iff.
Qed.

(** X9. The filter keeps the conversations in their order; it keeps
    exactly those that are not a single message whose text starts with
    [http] or has ten characters or fewer, so every conversation of two
    messages or more passes. *)
Theorem filtered_conversations_spec convs :
  filtered_conversations convs `sublist_of` convs
  ∧ ∀ c,
      c ∈ filtered_conversations convs
      ↔ c ∈ convs
        ∧ ∀ m, c = [m] →
               startswith (text m) (str "http") = false
               ∧ (10 < length (text m))%nat.
Proof.
  split.
  - unfold filtered_conversations.
    induction convs as [|c convs IH]; simpl; [done|].
    destruct (negb (skipped c)); by constructor.
  - intros c. rewrite filtered_conversations_elem.
    split; intros [Hin Hc]; (split; [done|]).
    + intros m ->. destruct (startswith (text m) (str "http")) eqn:Hs.
      * assert (skipped [m] = true) as Hsk; [|congruence].
        apply skipped_spec. exists m. by split; [|left].
      * split; [done|]. destruct (le_lt_dec (length (text m)) 10); [|done].
        assert (skipped [m] = true) as Hsk; [|congruence].
        apply skipped_spec. exists m. by split; [|right].
    + destruct (skipped c) eqn:Hsk; [|done].
      apply skipped_spec in Hsk as (m & -> & Hm).
      destruct (Hc m eq_refl) as [Hs Hlen].
      destruct Hm as [Hm|Hm]; [congruence|lia].
Qed.

Lemma slice_prefix {A} (c : list A) (i : nat) :
  slice c 0 (Z.of_nat i + 1) = take (S i) c.
Proof.
  unfold slice, clamp.
  destruct (Z.ltb_spec (Z.of_nat i + 1) 0); [lia|].
  change (0 <? 0) with false. cbv iota.
  rewrite (Z.min_l 0) by lia. change (Z.to_nat 0) with 0%nat. simpl drop.
  destruct (Z.min_spec (Z.of_nat i + 1) (Z.of_nat (length c)))
    as [[Hlt ->]|[Hge ->]].
  - f_equal. lia.
  - rewrite Z.sub_0_r, Nat2Z.id. change (drop 0 c) with c.
    rewrite (take_ge c (length c)) by lia. by rewrite take_ge by lia.
Qed.

Lemma prefixes_cons x c :
  prefixes (x :: c)
  = match speaker x with
    | Some _ => [[x]]
    | None => []
    end ++ map (cons x) (prefixes c).
Proof.
  unfold prefixes. simpl length.
  change (seq 0 (S (length c))) with (0%nat :: seq 1 (length c)).
  rewrite bind_cons, <- fmap_S_seq, list_fmap_bind. f_equal.
  - simpl lookup. rewrite (slice_prefix _ 0). simpl.
    by destruct (speaker x).
  - generalize (seq 0 (length c)). intros l.
    induction l as [|i l IH]; [done|].
    rewrite !bind_cons, fmap_app, IH. f_equal. simpl.
    destruct (c !! i) as [m|]; [|done].
    destruct (speaker m); [|done].
    rewrite (slice_prefix _ (S i)), (slice_prefix _ i). done.
Qed.

Lemma prefixes_elem c pc :
  pc ∈ prefixes c
  ↔ ∃ m, pc `prefix_of` c ∧ last pc = Some m ∧ is_Some (speaker m).
Proof.
  revert pc. induction c as [|x c IH]; intros pc.
  - split; [by intros ?%elem_of_nil|].
    intros (m & Hpre & Hlast & _). apply prefix_nil_inv in Hpre as ->. done.
  - rewrite prefixes_cons, elem_of_app, list_elem_of_fmap. split.
    + intros [Hx|(pc' & -> & Hin)].
      * destruct (speaker x) as [s|] eqn:Hs; [|by apply elem_of_nil in Hx].
        apply list_elem_of_singleton in Hx as ->.
        exists x. split; [by exists c|]. split; [done|]. by rewrite Hs.
      * apply IH in Hin as (m & Hpre & Hlast & Hm).
        exists m. split; [by apply prefix_cons|]. split; [|done].
        destruct pc'; [done|]. by rewrite last_cons_cons.
    + intros (m & Hpre & Hlast & Hm).
      destruct pc as [|y [|z pc]]; [done| |].
      * injection Hlast as ->.
        destruct Hpre as [k Hk]. injection Hk as -> _.
        left. destruct Hm as [s ->]. left.
      * right. destruct Hpre as [k Hk]. injection Hk as -> ->.
        exists (z :: pc). split; [done|]. apply IH.
        exists m. split; [by exists k|]. by rewrite last_cons_cons in Hlast.
Qed.

Lemma partial_conversations_elem convs pc :
  pc ∈ partial_conversations convs
  ↔ ∃ c m,
      c ∈ convs ∧ pc `prefix_of` c
      ∧ last pc = Some m ∧ is_Some (speaker m).
Proof.
  unfold partial_conversations. rewrite list_elem_of_bind. split.
  - intros (c & Hpc & Hc). apply prefixes_elem in Hpc as (m & ? & ? & ?).
    by exists c, m.
  - intros (c & m & Hc & ? & ? & ?). exists c. split; [|done].
    apply prefixes_elem. by exists m.
Qed.

(** X10. The partial conversations are exactly the prefixes of the
    conversations that end on a message with a speaker: each is
    non-empty, and none ends on a message without speaker. *)
Theorem partial_conversations_spec convs pc :
  pc ∈ partial_conversations convs
  ↔ ∃ c m,
      c ∈ convs ∧ pc `prefix_of` c
      ∧ last pc = Some m ∧ is_Some (speaker m).
Proof. apply partial_conversations_elem. Qed.

Lemma omap_last_cons {A} (x : A) (l : list (list A)) :
  Forall (fun pc => pc ≠ []) l →
  omap last (map (cons x) l) = omap last l.
Proof.
  induction 1 as [|pc l Hpc _ IHl]; [done|].
  destruct pc as [|y pc]; [done|].
  cbn [map omap list_omap]. rewrite last_cons_cons.
  cbn [map omap list_omap] in IHl. by rewrite IHl.
Qed.

Lemma prefixes_last c : omap last (prefixes c) = with_speaker c.
Proof.
  unfold with_speaker. induction c as [|x c IH]; [done|].
  rewrite prefixes_cons, omap_app, filter_cons.
  rewrite omap_last_cons; cycle 1.
  { apply Forall_forall. intros pc Hpc.
    apply prefixes_elem in Hpc as (m & _ & Hlast & _). by intros ->. }
  rewrite IH. destruct (speaker x) as [s|] eqn:Hs.
  - by rewrite decide_True by done.
  - rewrite decide_False; [done|]. by intros [? ?].
Qed.

Lemma partial_conversations_last convs :
  omap last (partial_conversations convs) = with_speaker (concat convs).
Proof.
  unfold partial_conversations, with_speaker.
  induction convs as [|c convs IH]; [done|].
  rewrite bind_cons, omap_app, IH. simpl. rewrite filter_app.
  by rewrite prefixes_last.
Qed.

(** X11. There is one partial conversation for each message with a
    speaker, in the order of the messages: the last messages of the
    partial conversations are the messages with a speaker. *)
Theorem partial_conversations_targets convs :
  omap last (partial_conversations convs) = with_speaker (concat convs).
Proof. apply partial_conversations_last. Qed.

(** ** The speaker counts *)

Lemma counter_get_incr k counts k' :
  counter_get (counter_incr k counts) k'
  = if decide (k' = k) then S (counter_get counts k')
    else counter_get counts k'.
Proof.
  induction counts as [|[k0 n] counts IH]; simpl.
  - repeat case_decide; congruence.
  - repeat (case_decide; simpl); try congruence;
      rewrite IH; by rewrite ?decide_True, ?decide_False by done.
Qed.

Lemma counter_keys_incr k counts :
  counter_keys (counter_incr k counts)
  = if decide (k ∈ counter_keys counts) then counter_keys counts
    else counter_keys counts ++ [k].
Proof.
  unfold counter_keys. induction counts as [|[k0 n] counts IH]; simpl.
  - done.
  - destruct (decide (k = k0)) as [->|Hk]; simpl.
    + rewrite decide_True; [done|]. left.
    + rewrite IH. destruct (decide (k ∈ map fst counts)) as [Hin|Hin].
      * rewrite decide_True; [done|]. by right.
      * rewrite decide_False; [done|].
        intros [?|?]%elem_of_cons; congruence.
Qed.

Lemma counter_sum_incr k counts :
  sum_list (map snd (counter_incr k counts)) = S (sum_list (map snd counts)).
Proof.
  induction counts as [|[k0 n] counts IH]; simpl; [done|].
  destruct (decide (k = k0)); simpl; [done|]. rewrite IH. lia.
Qed.

Lemma speaker_counts_fold convs :
  speaker_counts convs
  = fold_left (fun counts m => counter_incr (speaker m) counts)
      (concat convs) [].
Proof.
  unfold speaker_counts. generalize ([] : Counter).
  induction convs as [|c convs IH]; intros counts; simpl; [done|].
  by rewrite fold_left_app, IH.
Qed.

Lemma counter_fold_get msgs counts k :
  counter_get
    (fold_left (fun counts m => counter_incr (speaker m) counts) msgs counts) k
  = (counter_get counts k + length (spoken_by k msgs))%nat.
Proof.
  unfold spoken_by. revert counts.
  induction msgs as [|m msgs IH]; intros counts; simpl; [lia|].
  rewrite IH, counter_get_incr, filter_cons.
  destruct (decide (k = speaker m)) as [->|Hne].
  - rewrite decide_True by done. simpl. lia.
  - rewrite decide_False by congruence. done.
Qed.

Lemma counter_fold_sum msgs counts :
  sum_list
    (map snd
       (fold_left (fun counts m => counter_incr (speaker m) counts) msgs counts))
  = (sum_list (map snd counts) + length msgs)%nat.
Proof.
  revert counts. induction msgs as [|m msgs IH]; intros counts; simpl; [lia|].
  rewrite IH, counter_sum_incr. lia.
Qed.

(** X12. The counter holds for every speaker, and for the messages
    without speaker, the number of their messages in the conversations
    (zero for a speaker who wrote none), and the counts add up to the
    number of messages. *)
Theorem speaker_counts_spec convs :
  (∀ k, counter_get (speaker_counts convs) k
        = length (spoken_by k (concat convs)))
  ∧ sum_list (map snd (speaker_counts convs)) = length (concat convs).
Proof.
  rewrite speaker_counts_fold. split.
  - intros k. by rewrite counter_fold_get.
  - by rewrite counter_fold_sum.
Qed.

Lemma first_seen_elem {A} `{EqDecision A} (l : list A) x :
  x ∈ first_seen l ↔ x ∈ l.
Proof.
  induction l as [|y l IH]; simpl; [done|].
  rewrite !elem_of_cons, list_elem_of_filter, IH.
  destruct (decide (x = y)); tauto.
Qed.

Lemma first_seen_NoDup {A} `{EqDecision A} (l : list A) :
  NoDup (first_seen l).
Proof.
  induction l as [|y l IH]; simpl; constructor.
  - rewrite list_elem_of_filter. by intros [Hy _].
  - by apply NoDup_filter.
Qed.

Lemma filter_all {A} (P : A → Prop) `{∀ x, Decision (P x)} (l : list A) :
  (∀ x, P x) → filter P l = l.
Proof.
  intros HP. induction l as [|x l IH]; [done|].
  by rewrite filter_cons_True, IH.
Qed.

Lemma filter_first_seen_absorb {A} `{EqDecision A} (keys : list A)
    (k : A) (l : list A) :
  k ∈ keys →
  filter (fun y => y ∉ keys) (filter (fun y => y ≠ k) l)
  = filter (fun y => y ∉ keys) l.
Proof.
  intros Hk. rewrite list_filter_filter. apply list_filter_iff.
  intros y. split; [by intros [? ?]|]. intros Hy. split; [done|].
  by intros ->.
Qed.

Lemma counter_fold_keys msgs counts :
  counter_keys
    (fold_left (fun counts m => counter_incr (speaker m) counts) msgs counts)
  = counter_keys counts
    ++ filter (fun k => k ∉ counter_keys counts)
         (first_seen (map speaker msgs)).
Proof.
  revert counts. induction msgs as [|m msgs IH]; intros counts; simpl.
  - by rewrite app_nil_r.
  - rewrite IH, counter_keys_incr, filter_cons.
    destruct (decide (speaker m ∈ counter_keys counts)) as [Hin|Hout].
    + rewrite decide_False by (by intros Hn; apply Hn).
      by rewrite filter_first_seen_absorb.
    + rewrite decide_True by done. rewrite <- app_assoc. simpl.
      do 2 f_equal. rewrite list_filter_filter. apply list_filter_iff.
      intros y. rewrite elem_of_app, list_elem_of_singleton. tauto.
Qed.

Lemma omap_fst_keys (counts : Counter) :
  speakers counts = omap id (counter_keys counts).
Proof.
  unfold speakers, counter_keys.
  induction counts as [|[k n] counts IH]; [done|].
  cbn [map omap list_omap]. simpl. by rewrite IH.
Qed.

Lemma NoDup_omap_id {A} (l : list (option A)) :
  NoDup l → NoDup (omap id l).
Proof.
  induction 1 as [|k l Hk _ IH]; [constructor|].
  destruct k as [s|]; cbn [omap list_omap]; simpl; [|done].
  constructor; [|done]. rewrite list_elem_of_omap.
  intros ([s'|] & Hin & Hs); by simplify_eq/=.
Qed.

Lemma speakers_first_seen convs :
  speakers (speaker_counts convs)
  = omap id (first_seen (map speaker (concat convs))).
Proof.
  rewrite omap_fst_keys, speaker_counts_fold, counter_fold_keys. simpl.
  f_equal. apply filter_all. intros k. by intros ?%elem_of_nil.
Qed.

Lemma speakers_elem convs s :
  s ∈ speakers (speaker_counts convs)
  ↔ ∃ m, m ∈ concat convs ∧ speaker m = Some s.
Proof.
  rewrite speakers_first_seen, list_elem_of_omap. split.
  - intros (k & Hk & Hs). simpl in Hs. subst k.
    apply first_seen_elem, list_elem_of_fmap in Hk as (m & Hm & Hin).
    by exists m.
  - intros (m & Hin & Hm). exists (Some s). split; [|done].
    apply first_seen_elem, list_elem_of_fmap. by exists m.
Qed.

(** X13. The speakers named in the instructions are the speakers of the
    messages of the conversations, each once, in the order in which they
    first speak; the messages without speaker add no name. *)
Theorem speakers_spec convs :
  speakers (speaker_counts convs)
  = omap id (first_seen (map speaker (concat convs)))
  ∧ NoDup (speakers (speaker_counts convs))
  ∧ ∀ s, s ∈ speakers (speaker_counts convs)
         ↔ ∃ m, m ∈ concat convs ∧ speaker m = Some s.
Proof.
  split; [apply speakers_first_seen|]. split; [|apply speakers_elem].
  rewrite speakers_first_seen. apply NoDup_omap_id, first_seen_NoDup.
Qed.

(** ** The script, from the chats to the examples *)

Lemma all_conversations_ok group_chats :
  ∃ convs, all_conversations group_chats = Ok convs.
Proof.
  unfold all_conversations. generalize ([] : list (list Message)).
  induction group_chats as [|chat gc IH]; intros acc; simpl; [by eexists|].
  rewrite construct_conversations_valid by apply valid_hours_default.
  simpl. apply IH.
Qed.

Lemma map_result_ok {A B} (f : A → result B) (P : A → B → Prop) (l : list A) :
  Forall (fun x => ∃ y, f x = Ok y ∧ P x y) l →
  ∃ ys, map_result f l = Ok ys ∧ Forall2 P l ys.
Proof.
  induction 1 as [|x l (y & Hy & HP) _ (ys & Hys & HF)]; simpl.
  - by exists [].
  - rewrite Hy. simpl. rewrite Hys. simpl. exists (y :: ys).
    split; [done|]. by constructor.
Qed.

(** What the example of a partial conversation that ends on a message of
    [s] looks like. *)
Lemma construct_example_target pc instr m s :
  last pc = Some m → speaker m = Some s →
  ∃ ex,
    construct_example pc instr = Ok ex
    ∧ instruction ex = instr
    ∧ output ex = text m
    ∧ (nl ++ s ++ str ": ") `suffix_of` input ex.
Proof.
  intros Hlast Hs.
  destruct (construct_example_run pc instr) as (x & Hx & Hrun).
  { by intros ->. }
  assert (x = m) as -> by congruence.
  eexists. split; [exact Hrun|]. rewrite Hs. cbn [instruction output input].
  repeat split. unfold format_speaker.
  set (context := if (budget <? _)%nat then _ else _).
  exists (str "Conversation:" ++ nl ++ context).
  by rewrite <- !app_assoc.
Qed.

(** X14. The script never raises between the extraction and the shuffle:
    it builds one example for each message with a speaker of the
    conversations that pass the filter, in their order, with that
    message's text as output, the instructions that name the speakers as
    instruction, and a prompt for a speaker the instructions name. *)
Theorem build_dataset_spec group_chats :
  ∃ convs exs,
    all_conversations group_chats = Ok convs
    ∧ build_dataset group_chats = Ok exs
    ∧ map output exs
      = map text (with_speaker (concat (filtered_conversations convs)))
    ∧ Forall
        (fun ex =>
           instruction ex
           = instructions
               (speakers (speaker_counts (filtered_conversations convs)))
           ∧ ∃ s,
               s ∈ speakers (speaker_counts (filtered_conversations convs))
               ∧ (nl ++ s ++ str ": ") `suffix_of` input ex)
        exs.
Proof.
  destruct (all_conversations_ok group_chats) as (convs & Hconvs).
  exists convs. unfold build_dataset. rewrite Hconvs. cbn [mbind result_bind].
  set (kept := filtered_conversations convs).
  set (instr := instructions (speakers (speaker_counts kept))).
  destruct (map_result_ok
              (fun pc => construct_example pc instr)
              (fun pc ex =>
                 ∃ m s, last pc = Some m
                        ∧ s ∈ speakers (speaker_counts kept)
                        ∧ instruction ex = instr
                        ∧ output ex = text m
                        ∧ (nl ++ s ++ str ": ") `suffix_of` input ex)
              (partial_conversations kept)) as (exs & Hexs & HF).
  { apply Forall_forall. intros pc Hpc.
    apply partial_conversations_elem in Hpc
      as (c & m & Hc & Hpre & Hlast & [s Hs]).
    destruct (construct_example_target pc instr m s Hlast Hs)
      as (ex & Hex & Hi & Ho & Hsuf).
    exists ex. split; [done|]. exists m, s. repeat split; try done.
    apply speakers_elem. exists m. split; [|done].
    apply list_elem_of_In, in_concat. exists c.
    split; [by apply list_elem_of_In|]. apply list_elem_of_In.
    apply last_Some_elem_of in Hlast.
    destruct Hpre as [k ->]. apply elem_of_app. by left. }
  exists exs. split; [done|]. split; [exact Hexs|]. split.
  - clear Hexs. rewrite <- partial_conversations_last.
    induction HF as [|pc ex pcs exs (m & s & Hlast & _ & _ & Ho & _) _ IH];
      [done|].
    cbn [map omap list_omap]. rewrite Hlast. simpl. by rewrite Ho, IH.
  - clear Hexs. induction HF
      as [|pc ex pcs exs (m & s & _ & Hs & Hi & _ & Hsuf) _ IH];
      constructor; [|done].
    split; [done|]. by exists s.
Qed.

(** ** sorted(chat, key=lambda m: m.timestamp) *)

Lemma insert_by_timestamp_sorted m l :
  StronglySorted timestamp_le l →
  StronglySorted timestamp_le (insert_by_timestamp m l).
Proof.
  induction 1 as [|x l Hl IH Hx]; simpl; [by repeat constructor|].
  destruct (N.leb_spec (timestamp m) (timestamp x)) as [Hle|Hlt].
  - constructor; [by constructor|]. constructor; [done|].
    eapply Forall_impl; [exact Hx|]. unfold timestamp_le. intros y Hy. lia.
  - constructor; [done|]. rewrite insert_by_timestamp_perm.
    constructor; [unfold timestamp_le; lia|done].
Qed.

Lemma sorted_by_timestamp_sorted chat :
  StronglySorted timestamp_le (sorted_by_timestamp chat).
Proof.
  induction chat as [|m chat IH]; simpl; [constructor|].
  by apply insert_by_timestamp_sorted.
Qed.

Lemma StronglySorted_non_decreasing chat :
  StronglySorted timestamp_le chat → non_decreasing chat.
Proof.
  induction 1 as [|x l Hl IH Hx]; intros i a b Ha Hb.
  - by rewrite lookup_nil in Ha.
  - destruct i as [|i]; simpl in *.
    + injection Ha as <-. rewrite Forall_forall in Hx.
      apply Hx. by eapply list_elem_of_lookup_2.
    + by eapply IH.
Qed.

Lemma insert_by_timestamp_filter t m l :
  filter (fun x => timestamp x = t) (insert_by_timestamp m l)
  = filter (fun x => timestamp x = t) (m :: l).
Proof.
  induction l as [|x l IH]; simpl; [done|].
  destruct (N.leb_spec (timestamp m) (timestamp x)) as [Hle|Hlt]; [done|].
  rewrite filter_cons, IH, !filter_cons.
  destruct (decide (timestamp x = t)) as [Hx|Hx];
    destruct (decide (timestamp m = t)) as [Hm|Hm]; try done.
  lia.
Qed.

(** X15. The sort of a chat is the stable sort by timestamp: the same
    messages, in non-decreasing order of timestamp, those of equal
    timestamp in the order they had. *)
Theorem sorted_by_timestamp_stable chat :
  sorted_by_timestamp chat ≡ₚ chat
  ∧ non_decreasing (sorted_by_timestamp chat)
  ∧ ∀ t, filter (fun m => timestamp m = t) (sorted_by_timestamp chat)
         = filter (fun m => timestamp m = t) chat.
Proof.
  split; [apply sorted_by_timestamp_perm|]. split.
  - apply StronglySorted_non_decreasing, sorted_by_timestamp_sorted.
  - intros t. induction chat as [|m chat IH]; simpl; [done|].
    by rewrite insert_by_timestamp_filter, !filter_cons, IH.
Qed.

(** ** The mapping of extract_group_chats *)

Section ExtractMapping.
Context `{Runtime}.

Lemma row_body_message chats row :
  row_body chats row
  = match row_message row with
    | Ok (Some m) => Ok (dict_append chats (row_chat_of row) m)
    | Ok None => Ok chats
    | Raise e => Raise e
    end.
Proof.
  destruct row as [[[cn sp] t] ts]. unfold row_body, row_message.
  unfold row_speaker_of, row_when_of, row_text_of, row_chat_of. simpl.
  destruct (normalize_speaker sp) as [sp'|e]; simpl; [|done].
  destruct (parse_timestamp ts) as [ts'|e]; simpl; [|done].
  by destruct (existsb _ (strip t)).
Qed.

Lemma row_message_valid row :
  is_ok (row_message row) = true ↔ row_valid row.
Proof.
  unfold row_message, row_valid, normalize_speaker, parse_timestamp.
  destruct (row_speaker_of row) as [[|c s]|];
    destruct (row_when_of row) as [raw|]; simpl;
    try destruct (fromisoformat raw) as [t|] eqn:Ht; simpl;
    try destruct (existsb _ _); simpl;
    split; try done; try (intros [? ?]; done);
    try (intros _; split; [done|by eexists _, _]);
    try (intros [_ (? & ? & ? & ?)]; congruence).
Qed.

Lemma for_each_row_body_valid rows chats :
  is_ok (for_each row_body chats rows) = true ↔ Forall row_valid rows.
Proof.
  revert chats. induction rows as [|row rows IH]; intros chats; simpl.
  - split; [constructor|done].
  - rewrite Forall_cons, <- row_message_valid, row_body_message.
    destruct (row_message row) as [[m|]|e]; simpl; rewrite ?IH;
      split; try done; try (by intros [? ?]); by intros ?.
Qed.

Lemma for_each_row_body_lookup rows chats0 chats k :
  for_each row_body chats0 rows = Ok chats →
  chats !! k
  = match chat_rows k rows with
    | [] => chats0 !! k
    | msgs => Some (default [] (chats0 !! k) ++ msgs)
    end.
Proof.
  unfold chat_rows. revert chats0.
  induction rows as [|row rows IH]; intros chats0.
  - simpl. by intros [= <-].
  - rewrite bind_cons. cbn [for_each]. rewrite row_body_message.
    destruct (row_message row) as [[m|]|e]; simpl; [| |done].
    + intros Hrun. rewrite (IH _ Hrun). unfold dict_append.
      destruct (decide (row_chat_of row = k)) as [->|Hne].
      * rewrite lookup_insert_eq. simpl.
        destruct (rows ≫= _); simpl; [done|]. by rewrite <- app_assoc.
      * rewrite lookup_insert_ne by done. by rewrite app_nil_l.
    + intros Hrun. rewrite (IH _ Hrun).
      by destruct (decide (row_chat_of row = k)).
Qed.

Lemma chat_rows_elem k rows m :
  m ∈ chat_rows k rows →
  ∃ row, row ∈ rows ∧ row_chat_of row = k ∧ row_message row = Ok (Some m).
Proof.
  unfold chat_rows. rewrite list_elem_of_bind. intros (row & Hm & Hrow).
  exists row. split; [done|].
  destruct (decide (row_chat_of row = k)); [|by apply elem_of_nil in Hm].
  destruct (row_message row) as [[m'|]|err];
    try by apply elem_of_nil in Hm.
  by apply list_elem_of_singleton in Hm as ->.
Qed.

Lemma select_row_Some r row :
  select_row r = Some row
  ↔ ∃ cn t,
      row_chat_name r = Some cn ∧ cn ≠ [] ∧ row_text r = Some t
      ∧ forallb (fun p => negb (sql_like_prefix t p)) reaction_prefixes = true
      ∧ row = (cn, speaker_case r, t, row_timestamp r).
Proof.
  unfold select_row. split.
  - destruct (row_chat_name r) as [cn|]; [|done].
    destruct (row_text r) as [t|]; [|done].
    destruct (bool_decide (cn = [])) eqn:Hcn; cbn [negb andb]; [done|].
    destruct (forallb _ reaction_prefixes) eqn:Hre; [|done].
    intros [= <-]. exists cn, t. repeat split; try done.
    by apply bool_decide_eq_false in Hcn.
  - intros (cn & t & -> & Hcn & -> & -> & ->).
    by rewrite bool_decide_eq_false_2.
Qed.

Lemma filtered_messages_chat rows row :
  row ∈ filtered_messages rows → row_chat_of row ≠ [].
Proof.
  unfold filtered_messages. rewrite list_elem_of_omap.
  intros (r & _ & Hsel).
  by apply select_row_Some in Hsel as (cn & t & _ & Hcn & _ & _ & ->).
Qed.

(** X16. The mapping holds, for every chat name, the messages the rows
    of that chat make, in stable timestamp order; a name none of whose
    rows makes a message is not a key. *)
Theorem extract_group_chats_mapping w chat_name tr chats :
  (extract_group_chats w chat_name tr).2 = Ok chats →
  ∃ rows,
    store w (CHATDB_PATH w) (like_param chat_name) = Ok rows
    ∧ ∀ k, chats !! k
           = match chat_rows k (filtered_messages rows) with
             | [] => None
             | msgs => Some (sorted_by_timestamp msgs)
             end.
Proof.
  rewrite extract_group_chats_result.
  destruct (path_exists w (CHATDB_PATH w)); [|done].
  destruct (store w (CHATDB_PATH w) (like_param chat_name)) as [rows|e];
    [|done].
  destruct (for_each row_body ∅ (filtered_messages rows)) as [chats0|e]
    eqn:Hrun; [|done].
  intros [= <-]. exists rows. split; [done|]. intros k.
  rewrite lookup_fmap, (for_each_row_body_lookup _ _ _ k Hrun).
  rewrite lookup_empty. by destruct (chat_rows k (filtered_messages rows)).
Qed.

(** X17. No chat of the mapping is empty, no key is the empty string,
    and every chat is in non-decreasing order of timestamp, as the
    segmentation wants it. *)
Theorem extract_group_chats_chats w chat_name tr chats (k : pystr) chat :
  (extract_group_chats w chat_name tr).2 = Ok chats →
  chats !! k = Some chat →
  chat ≠ [] ∧ k ≠ [] ∧ non_decreasing chat.
Proof.
  rewrite extract_group_chats_result.
  destruct (path_exists w (CHATDB_PATH w)); [|done].
  destruct (store w (CHATDB_PATH w) (like_param chat_name)) as [rows|e];
    [|done].
  destruct (for_each row_body ∅ (filtered_messages rows)) as [chats0|e]
    eqn:Hrun; [|done].
  intros [= <-].
  rewrite lookup_fmap, (for_each_row_body_lookup _ _ _ k Hrun), lookup_empty.
  destruct (chat_rows k (filtered_messages rows)) as [|m msgs] eqn:Hk;
    [done|].
  intros Hchat.
  change (Some (sorted_by_timestamp (m :: msgs)) = Some chat) in Hchat.
  injection Hchat as <-. repeat split.
  - intros Hnil. apply (f_equal length) in Hnil.
    change (insert_by_timestamp m (sorted_by_timestamp msgs))
      with (sorted_by_timestamp (m :: msgs)) in Hnil.
    rewrite (Permutation_length (sorted_by_timestamp_perm (m :: msgs)))
      in Hnil. done.
  - assert (m ∈ chat_rows k (filtered_messages rows)) as Hm
      by (rewrite Hk; left).
    apply chat_rows_elem in Hm as (row & Hrow & <- & _).
    by eapply filtered_messages_chat.
  - apply StronglySorted_non_decreasing.
    apply (sorted_by_timestamp_sorted (m :: msgs)).
Qed.

(** X18. The extraction returns a mapping exactly when the store is
    there, the query succeeds and every row of the result set can be
    read; a row that cannot be read fails the whole extraction, also
    when its text holds the object replacement character and the row would
    have been skipped. *)
Theorem extract_group_chats_strict w chat_name tr :
  is_ok (extract_group_chats w chat_name tr).2 = true
  ↔ path_exists w (CHATDB_PATH w) = true
    ∧ ∃ rows,
        store w (CHATDB_PATH w) (like_param chat_name) = Ok rows
        ∧ Forall row_valid (filtered_messages rows).
Proof.
  rewrite extract_group_chats_result.
  destruct (path_exists w (CHATDB_PATH w)); [|by split; [|intros [? _]]].
  destruct (store w (CHATDB_PATH w) (like_param chat_name)) as [rows|e].
  - destruct (for_each row_body ∅ (filtered_messages rows)) eqn:Hrun; simpl.
    + split; [|done]. intros _. split; [done|]. exists rows.
      split; [done|]. apply (for_each_row_body_valid _ ∅). by rewrite Hrun.
    + split; [done|]. intros [_ (rows' & [= <-] & Hv)].
      apply (for_each_row_body_valid _ ∅) in Hv. by rewrite Hrun in Hv.
  - split; [done|]. by intros [_ (rows & ? & _)].
Qed.

(** X19. When the path is there and an access to the store raises, the
    exception is the outcome and the run stops at that access: after the
    test of the path and the connection when the connection fails, after
    the query when the query fails, after the fetch when the fetch fails;
    no row is processed. *)
Theorem extract_group_chats_query_error w chat_name tr :
  path_exists w (CHATDB_PATH w) = true →
  match db_connect w (CHATDB_PATH w) with
  | Raise e =>
      extract_group_chats w chat_name tr
      = (tr ++ [EvExists (CHATDB_PATH w); EvConnect (CHATDB_PATH w)], Raise e)
  | Ok _ =>
      match db_execute w (CHATDB_PATH w) (like_param chat_name) with
      | Raise e =>
          extract_group_chats w chat_name tr
          = (tr ++ [EvExists (CHATDB_PATH w); EvConnect (CHATDB_PATH w);
                    EvExecute (like_param chat_name)],
             Raise e)
      | Ok _ =>
          match db_fetchall w (CHATDB_PATH w) (like_param chat_name) with
          | Raise e =>
              extract_group_chats w chat_name tr
              = (tr ++ [EvExists (CHATDB_PATH w); EvConnect (CHATDB_PATH w);
                        EvExecute (like_param chat_name); EvFetchall],
                 Raise e)
          | Ok _ =>
              (extract_group_chats w chat_name tr).1
              = tr ++ [EvExists (CHATDB_PATH w); EvConnect (CHATDB_PATH w);
                       EvExecute (like_param chat_name); EvFetchall]
          end
      end
  end.
Proof.
  intros Hex.
  unfold extract_group_chats, os_path_exists, read_result_set, emit, lift.
  unfold mbind, io_bind, mret, io_ret, result_bind, raise.
  unfold like_param in *. rewrite Hex. cbn [negb].
  destruct (db_connect w (CHATDB_PATH w)) as [[]|e1];
    [|by rewrite <- !app_assoc].
  destruct (db_execute w (CHATDB_PATH w) _) as [[]|e2];
    [|by rewrite <- !app_assoc].
  destruct (db_fetchall w (CHATDB_PATH w) _) as [rows|e3];
    [|by rewrite <- !app_assoc].
  rewrite <- !app_assoc. simpl.
  by destruct (for_each row_body ∅ (filtered_messages rows)).
Qed.

(** X20. When the store is there and the query succeeds, the run makes
    four accesses, in this order, whatever the rows are and whether or not
    the loop over them raises: the test of the path, the connection, the
    query with the pattern between two percent signs, the fetch. *)
Theorem extract_group_chats_accesses w chat_name rows tr :
  path_exists w (CHATDB_PATH w) = true →
  store w (CHATDB_PATH w) (like_param chat_name) = Ok rows →
  (extract_group_chats w chat_name tr).1
  = tr ++ [EvExists (CHATDB_PATH w); EvConnect (CHATDB_PATH w);
           EvExecute (str "%" ++ chat_name ++ str "%"); EvFetchall].
Proof.
  intros Hex Hst.
  by rewrite (extract_group_chats_found w chat_name rows tr).
Qed.

(** X21. When the result set is empty, because no chat matches or
    because the query filters every row out, the extraction returns the
    empty mapping. *)
Theorem extract_group_chats_empty w chat_name rows tr :
  path_exists w (CHATDB_PATH w) = true →
  store w (CHATDB_PATH w) (like_param chat_name) = Ok rows →
  Forall (fun r => select_row r = None) rows →
  (extract_group_chats w chat_name tr).2 = Ok ∅.
Proof.
  intros Hex Hst Hnone. rewrite extract_group_chats_result, Hex, Hst.
  assert (filtered_messages rows = []) as ->.
  { clear Hst. unfold filtered_messages.
    induction Hnone as [|r rows Hr _ IH]; [done|].
    cbn [omap list_omap]. by rewrite Hr. }
  simpl. by rewrite fmap_empty.
Qed.

End ExtractMapping.

(** ** The filter of the query *)



(** ** The further properties on sample data *)

Lemma extract_group_chats_mapping_witness :
  ∃ rows,
    store (world_of true blank_rows) (CHATDB_PATH (world_of true blank_rows))
      (like_param (str "Friends")) = Ok rows
    ∧ ∀ k, ({[ str "Friends" := blank_chat ]} : gmap pystr (list Message)) !! k
           = match chat_rows k (filtered_messages rows) with
             | [] => None
             | msgs => Some (sorted_by_timestamp msgs)
             end.
Proof.
  apply (extract_group_chats_mapping
           (world_of true blank_rows) (str "Friends") []
           {[ str "Friends" := blank_chat ]}).
  apply blank_rows_run.
Defined.

Lemma extract_group_chats_chats_witness :
  blank_chat ≠ [] ∧ str "Friends" ≠ [] ∧ non_decreasing blank_chat.
Proof.
  apply (extract_group_chats_chats
           (world_of true blank_rows) (str "Friends") []
           {[ str "Friends" := blank_chat ]} (str "Friends") blank_chat).
  - apply blank_rows_run.
  - apply blank_chat_lookup.
Defined.

Lemma extract_group_chats_query_error_witness :
  path_exists broken_world (CHATDB_PATH broken_world) = true
  ∧ extract_group_chats broken_world (str "Friends") []
    = ([EvExists (CHATDB_PATH broken_world);
        EvConnect (CHATDB_PATH broken_world)],
       Raise DatabaseError).
Proof.
  split; [reflexivity|].
  exact (extract_group_chats_query_error
           broken_world (str "Friends") [] eq_refl).
Defined.

(** The connection is made and the query is refused: three accesses,
    nothing fetched. *)
Example extract_group_chats_stale :
  extract_group_chats stale_world (str "Friends") []
  = ([EvExists (CHATDB_PATH stale_world); EvConnect (CHATDB_PATH stale_world);
      EvExecute (like_param (str "Friends"))],
     Raise DatabaseError).
Proof. reflexivity. Qed.

Lemma extract_group_chats_accesses_witness :
  (extract_group_chats (world_of true nameless_rows) (str "Friends") []).1
  = [EvExists (CHATDB_PATH (world_of true nameless_rows));
     EvConnect (CHATDB_PATH (world_of true nameless_rows));
     EvExecute (str "%" ++ str "Friends" ++ str "%"); EvFetchall].
Proof.
  apply (extract_group_chats_accesses
           (world_of true nameless_rows) (str "Friends") nameless_rows []).
  - reflexivity.
  - reflexivity.
Defined.

Lemma extract_group_chats_empty_witness :
  Forall (fun r => select_row r = None) reaction_rows
  ∧ (extract_group_chats (world_of true reaction_rows) (str "Friends") []).2
    = Ok ∅.
Proof.
  assert (Forall (fun r => select_row r = None) reaction_rows) as Hnone.
  { repeat constructor. }
  split; [exact Hnone|].
  apply (extract_group_chats_empty
           (world_of true reaction_rows) (str "Friends") reaction_rows []).
  - reflexivity.
  - reflexivity.
  - exact Hnone.
Defined.

(** The script on the afternoon chat: the question without speaker is
    kept by the filter and prompts no example, the message of the evening
    is lost with the open segment. *)
Example build_dataset_afternoon :
  (exs ← build_dataset [afternoon_chat];
   Ok (map instruction exs, map output exs))
  = Ok ([instructions [str "Al"; str "Bo"]; instructions [str "Al"; str "Bo"]],
        [str "Dinner at eight?"; str "Sure, see you then"]).
Proof. vm_compute. reflexivity. Qed.

Example partial_conversations_afternoon :
  partial_conversations [take 2 afternoon_chat; take 1 (drop 2 afternoon_chat)]
  = [take 1 afternoon_chat; take 2 afternoon_chat].
Proof. reflexivity. Qed.

Example speaker_counts_afternoon :
  speaker_counts [afternoon_chat]
  = [(Some (str "Al"), 2%nat); (Some (str "Bo"), 1%nat); (None, 1%nat)].
Proof. reflexivity. Qed.
